(** * A shallow embedding of the rpico container engine

    The Rust sources are [src/constants.rs], [src/crypt.rs], [src/errors.rs]
    and [src/file.rs].  Bytes ([u8]) are [Z] values in [0, 256); [u16],
    [u32], [usize] and [u64] values are [Z] values in their ranges.

    Rust's [+] on fixed-width integers panics on overflow when the build has
    overflow checks (debug builds, [cargo test]) and wraps otherwise (the
    default release profile).  The embedding takes the build flag as the
    section variable [overflow_checks]. *)

From Stdlib Require Import Ascii String ZArith List Lia Bool.
Import ListNotations.
Open Scope Z_scope.

(** ** constants.rs *)

Definition MAGIC : Z := 0x91c0.
Definition MAJOR : Z := 1.
Definition MINOR : Z := 0.

Definition MAGIC_LEN : Z := 2.
Definition MAJOR_LEN : Z := 2.
Definition MINOR_LEN : Z := 2.
Definition OFFSET_LEN : Z := 4.
Definition HASH_LEN : Z := 16.
Definition KEYLEN_LEN : Z := 2.

Definition MAGIC_POS : Z := 0.
Definition MAJOR_POS : Z := MAGIC_POS + MAGIC_LEN.
Definition MINOR_POS : Z := MAJOR_POS + MAJOR_LEN.
Definition OFFSET_POS : Z := MINOR_POS + MINOR_LEN.
Definition HASH_POS : Z := OFFSET_POS + OFFSET_LEN.
Definition KEYLEN_POS : Z := HASH_POS + HASH_LEN.
Definition KEY_POS : Z := KEYLEN_POS + KEYLEN_LEN.

Definition CHUNK_SIZE : Z := 4096.

(** Length of a Rust slice or [Vec], as a [usize]. *)
Definition len {A} (l : list A) : Z := Z.of_nat (length l).

(** ** errors.rs *)

(** The [io::Error] carried by the I/O-wrapping error kinds. *)
Inductive io_error : Type := EIO.

Inductive PicoError : Type :=
| FileNotFound (id : Z) (name : string) (err : io_error)
| FileExists (id : Z) (name : string) (err : io_error)
| SeekFailed (id : Z) (err : io_error)
| ReadFailed (id : Z) (err : io_error)
| WriteFailed (id : Z) (err : io_error)
| NotPico (magic : Z)
| BadVersion (major minor : Z)
| KeyError
| BadOffset (offset minimum : Z)
| HashError
| InternalError (id : Z).

(** ** The seekable byte store

    A regular file as [std::fs::File] sees it: its bytes, the cursor, and
    which kinds of call fail (an I/O fault of the environment).  A read
    returns every byte available up to the buffer length; a write past the
    end fills the gap with zero bytes. *)

Inductive io_result (A : Type) : Type :=
| IoOk (a : A)
| IoErr (e : io_error).
Arguments IoOk {A} a.
Arguments IoErr {A} e.

Record MemFile : Type := mkFile {
  contents : list Z;
  cursor : nat;
  fail_seek : bool;
  fail_read : bool;
  fail_write : bool;
  fail_flush : bool
}.

Definition set_cursor (f : MemFile) (c : nat) : MemFile :=
  mkFile (contents f) c (fail_seek f) (fail_read f) (fail_write f)
    (fail_flush f).

Definition set_contents (f : MemFile) (d : list Z) (c : nat) : MemFile :=
  mkFile d c (fail_seek f) (fail_read f) (fail_write f) (fail_flush f).

(** [d] with [b] written at [c], zero-filled up to [c]. *)
Definition overwrite (d : list Z) (c : nat) (b : list Z) : list Z :=
  let d' := d ++ repeat 0 (c - length d) in
  firstn c d' ++ b ++ skipn (c + length b) d'.

(** [seek(SeekFrom::Start(n))] *)
Definition file_seek (n : Z) (f : MemFile) : MemFile * io_result Z :=
  if fail_seek f then (f, IoErr EIO)
  else (set_cursor f (Z.to_nat n), IoOk n).

(** [read(buf)]: the updated buffer and the count read. *)
Definition file_read (buf : list Z) (f : MemFile)
  : MemFile * io_result (list Z * Z) :=
  if fail_read f then (f, IoErr EIO)
  else
    let avail := skipn (cursor f) (contents f) in
    let k := Nat.min (length buf) (length avail) in
    (set_cursor f (cursor f + k), IoOk (firstn k avail ++ skipn k buf, Z.of_nat k)).

(** [write(buf)]: the count written. *)
Definition file_write (buf : list Z) (f : MemFile) : MemFile * io_result Z :=
  if fail_write f then (f, IoErr EIO)
  else (set_contents f (overwrite (contents f) (cursor f) buf)
          (cursor f + length buf), IoOk (len buf)).

(** [flush()] *)
Definition file_flush (f : MemFile) : MemFile * io_result unit :=
  if fail_flush f then (f, IoErr EIO) else (f, IoOk tt).

(** ** Results, panics and the [?] operator

    A computation over a state [S] (the [&mut self] of a method) ends with
    [Ok] or [Err] (a [Result]) in a final state, or panics. *)

Inductive outcome (S A : Type) : Type :=
| Ok (s : S) (a : A)
| Err (s : S) (e : PicoError)
| Panic.
Arguments Ok {S A} s a.
Arguments Err {S A} s e.
Arguments Panic {S A}.

Definition PM (S A : Type) : Type := S -> outcome S A.

Definition pm_ret {S A} (a : A) : PM S A := fun s => Ok s a.

Definition pm_bind {S A B} (m : PM S A) (k : A -> PM S B) : PM S B :=
  fun s => match m s with
           | Ok s' a => k a s'
           | Err s' e => Err s' e
           | Panic => Panic
           end.

Declare Scope pm_scope.
Delimit Scope pm_scope with pm.
Notation "x <- m ;; k" := (pm_bind m (fun x => k))
  (at level 61, m at next level, right associativity) : pm_scope.
Notation "' pat <- m ;; k" :=
  (pm_bind m (fun x => match x with pat => k end))
  (at level 61, pat pattern, m at next level, right associativity) : pm_scope.
Notation "m ;;; k" := (pm_bind m (fun _ => k))
  (at level 61, right associativity) : pm_scope.
Open Scope pm_scope.

Definition pm_gets {S A} (f : S -> A) : PM S A := fun s => Ok s (f s).
Definition pm_modify {S} (f : S -> S) : PM S unit := fun s => Ok (f s) tt.
Definition pm_fail {S A} (e : PicoError) : PM S A := fun s => Err s e.

(** A panic when the option is [None]. *)
Definition pm_lift {S A} (o : option A) : PM S A :=
  fun s => match o with Some a => Ok s a | None => Panic end.

(** [op.map_err(wrap)?] for a store call on the file inside the state. *)
Definition io_at {S A} (get : S -> MemFile) (put : S -> MemFile -> S)
    (op : MemFile -> MemFile * io_result A) (wrap : io_error -> PicoError)
  : PM S A :=
  fun s => let (f', r) := op (get s) in
           match r with
           | IoOk a => Ok (put s f') a
           | IoErr e => Err (put s f') (wrap e)
           end.

(** ** The [Pico] structure (file.rs) *)

Record Pico : Type := mkPico {
  major : Z;
  minor : Z;
  offset : Z;
  hash : list Z;
  key : list Z;
  is_hash_valid : bool;
  md_start : Z;
  md_length : Z;
  file : MemFile
}.

Definition set_file (p : Pico) (f : MemFile) : Pico :=
  mkPico (major p) (minor p) (offset p) (hash p) (key p) (is_hash_valid p)
    (md_start p) (md_length p) f.

(** [self.file.op().map_err(wrap)?] *)
Definition on_file {A} := @io_at Pico A file set_file.

Definition get_version (p : Pico) : Z * Z := (major p, minor p).
Definition get_offset (p : Pico) : Z := offset p.
Definition get_hash (p : Pico) : list Z := hash p.
Definition get_key (p : Pico) : list Z := key p.
(** [self.md_length as u32] *)
Definition get_md_length (p : Pico) : Z := md_length p mod 2 ^ 32.

(** [as u8] *)
Definition as_u8 (x : Z) : Z := Z.land x 255.

(** [ByteDump::get_bytes] for [u16] and [u32] (intbytes.rs). *)
Definition u16_bytes (x : Z) : list Z :=
  [as_u8 (Z.shiftr x 8); as_u8 x].
Definition u32_bytes (x : Z) : list Z :=
  [as_u8 (Z.shiftr x 24); as_u8 (Z.shiftr x 16); as_u8 (Z.shiftr x 8); as_u8 x].

Section Build.

(** [true]: arithmetic overflow panics; [false]: it wraps. *)
Variable overflow_checks : bool.

(** Rust's [a + b] on a [w]-bit unsigned type; [None] is a panic. *)
Definition add_bits (w a b : Z) : option Z :=
  let s := a + b in
  if s <? 2 ^ w then Some s
  else if overflow_checks then None
  else Some (s mod 2 ^ w).

Definition usize_add : Z -> Z -> option Z := add_bits 64.
Definition u32_add : Z -> Z -> option Z := add_bits 32.

(** ** crypt.rs *)

(** The body of [for index in 0..(data.len())], from [index] on:
    [data[index] ^= key[(index + position) % klen]]. *)
Fixpoint crypt_loop (index position : Z) (key data : list Z)
  : option (list Z) :=
  match data with
  | [] => Some []
  | b :: rest =>
      match usize_add index position with
      | None => None
      | Some i =>
          let k := nth (Z.to_nat (i mod len key)) key 0 in
          match crypt_loop (index + 1) position key rest with
          | None => None
          | Some rest' => Some (Z.lxor b k :: rest')
          end
      end
  end.

(** [crypt(position, data, key)]; [None] is a panic (empty key, or an
    overflowing index in a build with overflow checks). *)
Definition crypt (position : Z) (data key : list Z) : option (list Z) :=
  let klen := len key in
  if klen =? 0 then None
  else crypt_loop 0 position key data.

(** ** file.rs *)

(** The digest of the [md5] crate: a [Context] is the byte stream it has
    consumed, and [compute] maps that stream to the 16-byte digest. *)
Variable md5_compute : list Z -> list Z.

(** [write_header] *)
Definition write_header : PM Pico unit :=
  on_file (file_seek 0) (SeekFailed 1018) ;;;
  on_file (file_write (u16_bytes MAGIC)) (WriteFailed 1019) ;;;
  '(major, minor) <- pm_gets get_version ;;
  on_file (file_write (u16_bytes major)) (WriteFailed 1020) ;;;
  on_file (file_write (u16_bytes minor)) (WriteFailed 1021) ;;;
  off <- pm_gets get_offset ;;
  on_file (file_write (u32_bytes off)) (WriteFailed 1022) ;;;
  h <- pm_gets get_hash ;;
  on_file (file_write h) (WriteFailed 1023) ;;;
  k <- pm_gets get_key ;;
  on_file (file_write (u16_bytes (len k mod 2 ^ 16))) (WriteFailed 1024) ;;;
  on_file (file_write k) (WriteFailed 1025) ;;;
  pm_ret tt.

(** [Pico::new(file, key, md_length)] *)
Definition new (f : MemFile) (k : list Z) (md_length : Z) : outcome unit Pico :=
  match usize_add (len k) KEY_POS with
  | None => Panic
  | Some md_start =>
      match u32_add (md_start mod 2 ^ 32) md_length with
      | None => Panic
      | Some off =>
          let pico := mkPico MAJOR MINOR off (repeat 0 (Z.to_nat HASH_LEN)) k
                        false md_start md_length f in
          match (write_header ;;;
                 on_file file_flush (WriteFailed 1001)) pico with
          | Ok p _ => Ok tt p
          | Err _ e => Err tt e
          | Panic => Panic
          end
      end
  end.

(** The nested [tou16] and [tou32] of [open]. *)
Definition tou16 (buf : list Z) : Z :=
  Z.lor (Z.shiftl (nth 0 buf 0) 8) (nth 1 buf 0).
Definition tou32 (buf : list Z) : Z :=
  Z.lor (Z.lor (Z.lor (Z.shiftl (nth 0 buf 0) 24) (Z.shiftl (nth 1 buf 0) 16))
               (Z.shiftl (nth 2 buf 0) 8)) (nth 3 buf 0).

(** [file.read(&mut buf).map_err(|err| ReadFailed(id, err))?] while the
    file is still owned by [open]; the count read is dropped there. *)
Definition read_into (buf : list Z) (id : Z) : PM MemFile (list Z) :=
  '(buf', _) <- io_at (fun f => f) (fun _ f => f) (file_read buf) (ReadFailed id) ;;
  pm_ret buf'.

Definition open_body : PM MemFile Pico :=
  let u16buf := [0; 0] in
  let u32buf := [0; 0; 0; 0] in
  u16buf <- read_into u16buf 1002 ;;
  let magic := tou16 u16buf in
  if negb (magic =? MAGIC) then pm_fail (NotPico magic) else
  u16buf <- read_into u16buf 1003 ;;
  let major := tou16 u16buf in
  u16buf <- read_into u16buf 1004 ;;
  let minor := tou16 u16buf in
  if MAJOR <? major then pm_fail (BadVersion major minor) else
  u32buf <- read_into u32buf 1005 ;;
  let offset := tou32 u32buf in
  hash <- read_into (repeat 0 (Z.to_nat HASH_LEN)) 1006 ;;
  u16buf <- read_into u16buf 1007 ;;
  let keylen := tou16 u16buf in
  if keylen =? 0 then pm_fail KeyError else
  key <- read_into (repeat 0 (Z.to_nat keylen)) 1008 ;;
  md_start <- pm_lift (usize_add KEY_POS keylen) ;;
  if offset <? md_start then pm_fail (BadOffset offset (md_start mod 2 ^ 32)) else
  let md_length := offset - md_start in
  f <- pm_gets (fun f => f) ;;
  pm_ret (mkPico major minor offset hash key true md_start md_length f).

(** [Pico::open(file)] *)
Definition open (f : MemFile) : outcome unit Pico :=
  match open_body f with
  | Ok _ p => Ok tt p
  | Err _ e => Err tt e
  | Panic => Panic
  end.

(** [get_metadata(start, buffer)]: the updated buffer and the count. *)
Definition get_metadata (start : Z) (buffer : list Z) : PM Pico (list Z * Z) :=
  mdlen <- pm_gets get_md_length ;;
  if (mdlen =? 0) || (mdlen <=? start) then pm_ret (buffer, 0) else
  ms <- pm_gets md_start ;;
  true_offset <- pm_lift (usize_add start ms) ;;
  let max := Z.min (mdlen - start) (len buffer) in
  on_file (file_seek true_offset) (SeekFailed 1010) ;;;
  '(window, count) <- on_file (file_read (firstn (Z.to_nat max) buffer))
                                (ReadFailed 1011) ;;
  pm_ret (window ++ skipn (Z.to_nat max) buffer, count).

(** [put_metadata(start, buffer)]: the count written. *)
Definition put_metadata (start : Z) (buffer : list Z) : PM Pico Z :=
  mdlen <- pm_gets get_md_length ;;
  if (mdlen =? 0) || (mdlen <=? start) then pm_ret 0 else
  ms <- pm_gets md_start ;;
  true_offset <- pm_lift (usize_add start ms) ;;
  let max := Z.min (mdlen - start) (len buffer) in
  if max <=? 0 then pm_ret 0 else
  on_file (file_seek true_offset) (SeekFailed 1012) ;;;
  count <- on_file (file_write (firstn (Z.to_nat max) buffer)) (WriteFailed 1013) ;;
  pm_ret count.

(** [get(position, buffer)]: the decrypted buffer and the count read.  The
    whole buffer goes through [crypt], read or not. *)
Definition get (position : Z) (buffer : list Z) : PM Pico (list Z * Z) :=
  off <- pm_gets get_offset ;;
  true_offset <- pm_lift (usize_add position off) ;;
  on_file (file_seek true_offset) (SeekFailed 1014) ;;;
  '(buffer, count) <- on_file (file_read buffer) (ReadFailed 1015) ;;
  k <- pm_gets get_key ;;
  buffer <- pm_lift (crypt position buffer k) ;;
  pm_ret (buffer, count).

(** [put(position, buffer)]: the encrypted buffer and the count written.
    (On an [Err] the caller's buffer is not part of the result.) *)
Definition put (position : Z) (buffer : list Z) : PM Pico (list Z * Z) :=
  off <- pm_gets get_offset ;;
  true_offset <- pm_lift (usize_add position off) ;;
  on_file (file_seek true_offset) (SeekFailed 1016) ;;;
  k <- pm_gets get_key ;;
  buffer <- pm_lift (crypt position buffer k) ;;
  count <- on_file (file_write buffer) (ReadFailed 1017) ;;
  pm_ret (buffer, count).

(** The [loop] of [check_hash], with the md5 context as its consumed
    stream.  [fuel] bounds the iterations; [check_hash] gives one more than
    the store's length, and every iteration that does not leave the loop
    reads at least one byte of the store. *)
Fixpoint hash_loop (fuel : nat) (position : Z) (buffer context : list Z)
  : PM Pico (list Z) :=
  match fuel with
  | O => fun _ => Panic
  | S fuel' =>
      '(buffer, num) <- get position buffer ;;
      if num =? 0 then pm_ret context else
      position <- pm_lift (usize_add position num) ;;
      hash_loop fuel' position buffer (context ++ buffer)
  end.

Definition set_hash (p : Pico) (h : list Z) : Pico :=
  mkPico (major p) (minor p) (offset p) h (key p) true
    (md_start p) (md_length p) (file p).

(** [check_hash] *)
Definition check_hash : PM Pico unit :=
  valid <- pm_gets is_hash_valid ;;
  if valid then pm_ret tt else
  fuel <- pm_gets (fun p => S (length (contents (file p)))) ;;
  context <- hash_loop fuel 0 (repeat 0 (Z.to_nat CHUNK_SIZE)) [] ;;
  pm_modify (fun p => set_hash p (md5_compute context)).

(** [flush] *)
Definition flush : PM Pico unit :=
  check_hash ;;;
  write_header ;;;
  on_file file_flush (WriteFailed 1009) ;;;
  pm_ret tt.

End Build.

(** ** Text dumps (intbytes.rs, file.rs)

    [write!] into the target writer, whose results are ignored: the text is
    what a writer that accepts every write receives. *)

Definition nl : string := String (ascii_of_nat 10) EmptyString.
Definition dq : string := String (ascii_of_nat 34) EmptyString.

Definition hex_digit (d : Z) : string := substring (Z.to_nat d) 1 "0123456789ABCDEF".
Definition dec_digit (d : Z) : string := substring (Z.to_nat d) 1 "0123456789".

(** [{:02X}] of a [u8]. *)
Definition hex2 (b : Z) : string := (hex_digit (b / 16) ++ hex_digit (b mod 16))%string.
(** [{:04X}] of a [u16]. *)
Definition hex4 (x : Z) : string := (hex2 (x / 256) ++ hex2 (x mod 256))%string.

Fixpoint dec_aux (fuel : nat) (n : Z) (acc : string) : string :=
  match fuel with
  | O => acc
  | S fuel' =>
      let acc' := (dec_digit (n mod 10) ++ acc)%string in
      if n <? 10 then acc' else dec_aux fuel' (n / 10) acc'
  end.

(** [{}] of an unsigned integer (twenty digits hold every [u64]). *)
Definition dec (n : Z) : string := dec_aux 20 n EmptyString.

(** The loop of [ByteDump::dump_bytes] over the bytes [get_bytes] gave. *)
Fixpoint dump_bytes_loop (first : bool) (bytes : list Z) (hex : bool) : string :=
  match bytes with
  | [] => EmptyString
  | byte :: rest =>
      ((if first then EmptyString else ", ") ++
       (if hex then "0x" ++ hex2 byte else dec byte) ++
       dump_bytes_loop false rest hex)%string
  end.

(** [x.dump_bytes(target, hex)] with [bytes = x.get_bytes()]. *)
Definition dump_bytes (bytes : list Z) (hex : bool) : string :=
  dump_bytes_loop true bytes hex.

Fixpoint dump_vec_loop (first : bool) (bytes : list Z) (hex commas : bool) : string :=
  match bytes with
  | [] => EmptyString
  | byte :: rest =>
      let sep := negb hex || commas in
      ((if sep then (if first then EmptyString else ", ") else EmptyString) ++
       (if hex then (if commas then "0x" ++ hex2 byte else hex2 byte)
        else dec byte) ++
       dump_vec_loop (if sep then false else first) rest hex commas)%string
  end.

(** [dump_vec(target, bytes, hex, commas)] *)
Definition dump_vec (bytes : list Z) (hex commas : bool) : string :=
  dump_vec_loop true bytes hex commas.

(** header.rs *)
Inductive HeaderFormat : Type := DICT | JSON | YAML | XML.

(** [dump_header(target, form)] *)
Definition dump_header (p : Pico) (form : HeaderFormat) : string :=
  let '(major, minor) := get_version p in
  let hash := get_hash p in
  let key := get_key p in
  match form with
  | DICT =>
      "{" ++ nl ++
      "    " ++ dq ++ "magic" ++ dq ++ " : [ " ++ dump_bytes (u16_bytes MAGIC) true ++
      " ]," ++ nl ++
      "    " ++ dq ++ "major" ++ dq ++ " : " ++ dec major ++ "," ++ nl ++
      "    " ++ dq ++ "minor" ++ dq ++ " : " ++ dec minor ++ "," ++ nl ++
      "    " ++ dq ++ "offset" ++ dq ++ " : " ++ dec (get_offset p) ++ "," ++ nl ++
      "    " ++ dq ++ "hash" ++ dq ++ " : [ " ++ dump_vec hash true true ++
      " ]," ++ nl ++
      "    " ++ dq ++ "key_length" ++ dq ++ " : " ++ dec (len key) ++ "," ++ nl ++
      "    " ++ dq ++ "key" ++ dq ++ " : [ " ++ dump_vec key true true ++
      " ]," ++ nl ++
      "    " ++ dq ++ "md_length" ++ dq ++ " : " ++ dec (get_md_length p) ++ "," ++ nl ++
      "}" ++ nl
  | JSON =>
      "{" ++ nl ++
      "    " ++ dq ++ "magic" ++ dq ++ " : [ " ++ dump_bytes (u16_bytes MAGIC) false ++
      " ]," ++ nl ++
      "    " ++ dq ++ "major" ++ dq ++ " : " ++ dec major ++ "," ++ nl ++
      "    " ++ dq ++ "minor" ++ dq ++ " : " ++ dec minor ++ "," ++ nl ++
      "    " ++ dq ++ "offset" ++ dq ++ " : " ++ dec (get_offset p) ++ "," ++ nl ++
      "    " ++ dq ++ "hash" ++ dq ++ " : [ " ++ dump_vec hash false true ++
      " ]," ++ nl ++
      "    " ++ dq ++ "key_length" ++ dq ++ " : " ++ dec (len key) ++ "," ++ nl ++
      "    " ++ dq ++ "key" ++ dq ++ " : [ " ++ dump_vec key false true ++
      " ]," ++ nl ++
      "    " ++ dq ++ "md_length" ++ dq ++ " : " ++ dec (get_md_length p) ++ "," ++ nl ++
      "}" ++ nl
  | YAML =>
      "magic: [ " ++ dump_bytes (u16_bytes MAGIC) false ++ " ]" ++ nl ++
      "major: " ++ dec major ++ nl ++
      "minor: " ++ dec minor ++ nl ++
      "offset: " ++ dec (get_offset p) ++ nl ++
      "hash: [ " ++ dump_vec hash false true ++ " ]" ++ nl ++
      "key_length: " ++ dec (len key) ++ nl ++
      "key: [ " ++ dump_vec key false true ++ " ]" ++ nl ++
      "md_length: " ++ dec (get_md_length p) ++ nl
  | XML =>
      "<pico magic='0x" ++ hex4 MAGIC ++ "' major='" ++ dec major ++
      "' minor='" ++ dec minor ++ "' offset='" ++ dec (get_offset p) ++ "'" ++
      " hash='" ++ dump_vec hash true false ++
      " key='" ++ dump_vec key true false ++
      " md_length='" ++ dec (get_md_length p) ++ "' />"
  end%string.

(** The cipher as the specification words it: byte [i] is XORed with
    [key[(position + i) mod key.len()]]. *)
Definition crypt_spec (position : Z) (data key : list Z) : list Z :=
  map (fun '(i, b) =>
         Z.lxor b (nth (Z.to_nat ((position + Z.of_nat i) mod len key)) key 0))
      (combine (seq 0 (length data)) data).

(** The header bytes [write_header] writes: magic, version, offset,
    hash, key length and key, big-endian. *)
Definition header_bytes (major minor off : Z) (h k : list Z) : list Z :=
  u16_bytes MAGIC ++ u16_bytes major ++ u16_bytes minor ++ u32_bytes off
  ++ h ++ u16_bytes (len k mod 2 ^ 16) ++ k.

(** ** Sample stores and containers *)

(** An empty regular file whose calls all succeed. *)
Definition fresh_file : MemFile := mkFile [] 0 false false false false.

(** The state an outcome ends in ([d] after a panic). *)
Definition state_of {S A} (o : outcome S A) (d : S) : S :=
  match o with
  | Ok s _ => s
  | Err s _ => s
  | Panic => d
  end.

(** The container of [Ok] from [new] or [open]. *)
Definition result_pico (o : outcome unit Pico) : Pico :=
  match o with
  | Ok _ p => p
  | _ => mkPico 0 0 0 [] [] false 0 0 fresh_file
  end.

(** [Pico::new] on an empty file, key [0x40, 0x09], 10 metadata bytes. *)
Definition sample_pico : Pico := result_pico (new true fresh_file [0x40; 0x09] 10).

(** The bytes of ["Martindale"]. *)
Definition martindale : list Z := [77; 97; 114; 116; 105; 110; 100; 97; 108; 101].

(** [p] on a store whose writes fail. *)
Definition with_failing_writes (p : Pico) : Pico :=
  let f := file p in
  set_file p (mkFile (contents f) (cursor f) (fail_seek f) (fail_read f)
                true (fail_flush f)).

(** [sample_pico]'s store opened again from its start: its hash is
    trusted ([is_hash_valid = true]). *)
Definition sample_opened : Pico :=
  result_pico (open true (set_cursor (file sample_pico) 0)).

(** [sample_pico] after [put(0, [0x41])]: one byte of data. *)
Definition sample_written : Pico :=
  state_of (put true 0 [0x41] sample_pico) sample_pico.

(** The 4096 bytes [check_hash] hands to the digest for [sample_written]:
    the data byte 0x41, then the key stream [0x09, 0x40, ...] that
    decrypting the unread zero bytes of the chunk buffer produces. *)
Definition hashed_stream : list Z :=
  0x41 :: concat (repeat [0x09; 0x40] 2047) ++ [0x09].

(** * Proofs *)

Example crypt_test_3 :
  crypt true 0 [0x09; 0x20; 0x00; 0xe0] [0x40; 0x09]
  = Some [0x49; 0x29; 0x40; 0xe9].
Proof. reflexivity. Qed.

Example crypt_test_4 :
  crypt false 0 [0x9a; 0xd4; 0x6c; 0x58] [0xaa; 0x55; 0x63; 0xf7; 0x7e]
  = Some [0x30; 0x81; 0x0f; 0xaf].
Proof. reflexivity. Qed.

(** ** The cipher *)

Lemma lxor_cancel (b k : Z) : Z.lxor (Z.lxor b k) k = b.
Proof.
  rewrite Z.lxor_assoc, Z.lxor_nilpotent, Z.lxor_0_r; reflexivity.
Qed.

Lemma add_bits_small ck w a b : a + b < 2 ^ w -> add_bits ck w a b = Some (a + b).
Proof.
  intros H; unfold add_bits; cbv zeta.
  destruct (Z.ltb_spec (a + b) (2 ^ w)); [reflexivity | lia].
Qed.

Lemma crypt_loop_involutive ck index position key data out :
  crypt_loop ck index position key data = Some out ->
  crypt_loop ck index position key out = Some data.
Proof.
  revert index out; induction data as [|b data IH]; intros index out H;
    simpl in H.
  - injection H as <-; reflexivity.
  - destruct (usize_add ck index position) as [i|] eqn:Hi; [|discriminate].
    destruct (crypt_loop ck (index + 1) position key data) as [rest|] eqn:Hr;
      [|discriminate].
    injection H as <-; simpl.
    rewrite Hi, (IH _ _ Hr), lxor_cancel; reflexivity.
Qed.

(** [crypt_loop] from [index], when no index overflows. *)
Lemma crypt_loop_spec ck index position key data :
  0 <= index -> 0 <= position ->
  position + index + len data <= 2 ^ 64 ->
  crypt_loop ck index position key data =
  Some (map (fun '(i, b) =>
               Z.lxor b (nth (Z.to_nat ((position + Z.of_nat i) mod len key)) key 0))
            (combine (seq (Z.to_nat index) (length data)) data)).
Proof.
  revert index; induction data as [|b data IH]; intros index Hi Hp Hb.
  - reflexivity.
  - unfold len in Hb; simpl length in Hb; rewrite Nat2Z.inj_succ in Hb.
    simpl. unfold usize_add. rewrite add_bits_small by lia.
    rewrite IH by (unfold len; lia).
    replace (Z.to_nat (index + 1)) with (S (Z.to_nat index)) by lia.
    simpl. rewrite Z2Nat.id by lia.
    replace (index + position) with (position + index) by lia.
    reflexivity.
Qed.

Lemma map_combine_seq_snd (s : nat) (data : list Z) :
  map (fun '(_, b) => Z.lxor b 0) (combine (seq s (length data)) data) = data.
Proof.
  revert s; induction data as [|b data IH]; intros s; [reflexivity|].
  simpl; rewrite Z.lxor_0_r, IH; reflexivity.
Qed.

Lemma crypt_involutive ck position data key out :
  crypt ck position data key = Some out ->
  crypt ck position out key = Some data.
Proof.
  unfold crypt; cbv zeta.
  destruct (len key =? 0); [discriminate|].
  apply crypt_loop_involutive.
Qed.

(** C5: [crypt] is an involution: for every position, every non-empty key
    and every buffer, when [crypt] returns, applying it again with the same
    position and key returns the original buffer. *)
Theorem crypt_involution ck position data key out :
  key <> [] ->
  crypt ck position data key = Some out ->
  crypt ck position out key = Some data.
Proof.
  intros _; unfold crypt; cbv zeta.
  destruct (len key =? 0); [discriminate|].
  apply crypt_loop_involutive.
Qed.

Lemma crypt_involution_witness :
  crypt true 0 [0x09; 0x20; 0x00; 0xe0] [0x40; 0x09]
    = Some [0x49; 0x29; 0x40; 0xe9]
  /\ crypt true 0 [0x49; 0x29; 0x40; 0xe9] [0x40; 0x09]
    = Some [0x09; 0x20; 0x00; 0xe0].
Proof.
  split; [reflexivity|].
  apply (crypt_involution true 0 [0x09; 0x20; 0x00; 0xe0] [0x40; 0x09]).
  - discriminate.
  - reflexivity.
Defined.

(** [crypt] agrees with [crypt_spec] when no index overflows. *)
Lemma crypt_eq_spec ck position data key :
  key <> [] -> 0 <= position -> position + len data <= 2 ^ 64 ->
  crypt ck position data key = Some (crypt_spec position data key).
Proof.
  intros Hk Hp Hb. unfold crypt; cbv zeta.
  destruct (Z.eqb_spec (len key) 0) as [H0|_].
  - destruct key; [congruence | unfold len in H0; simpl in H0; lia].
  - rewrite crypt_loop_spec by lia. reflexivity.
Qed.

(** C6 (amended): for every non-empty key, every position and every buffer
    such that each [position + i] is a [usize] ([position + buffer.len()]
    at most 2^64), [crypt] XORs the byte at index [i] with
    [key[(position + i) mod key.len()]]; key [0x40, 0x09] at position 0
    turns [0x09, 0x20, 0x00, 0xE0] into [0x49, 0x29, 0x40, 0xE9], and the
    key [0x00] is the identity. *)
Theorem crypt_xor_keystream ck :
  (forall position data key,
      key <> [] -> 0 <= position -> position + len data <= 2 ^ 64 ->
      crypt ck position data key = Some (crypt_spec position data key))
  /\ crypt ck 0 [0x09; 0x20; 0x00; 0xe0] [0x40; 0x09]
     = Some [0x49; 0x29; 0x40; 0xe9]
  /\ (forall position data,
      0 <= position -> position + len data <= 2 ^ 64 ->
      crypt ck position data [0] = Some data).
Proof.
  pose proof (crypt_eq_spec ck) as Hgen.
  split; [exact Hgen|]. split.
  - destruct ck; reflexivity.
  - intros position data Hp Hb.
    rewrite Hgen by (discriminate || lia).
    unfold crypt_spec.
    transitivity (Some (map (fun '(_, b) => Z.lxor b 0)
                          (combine (seq 0 (length data)) data))).
    + f_equal. apply map_ext. intros [i b].
      destruct (Z.to_nat ((position + Z.of_nat i) mod len [0])) as [|[|n]];
        reflexivity.
    + rewrite map_combine_seq_snd; reflexivity.
Qed.

Lemma crypt_xor_keystream_counterexample :
  ~ (forall ck position data key,
        key <> [] -> 0 <= position < 2 ^ 64 ->
        crypt ck position data key = Some (crypt_spec position data key)).
Proof.
  intros H.
  (* position usize::MAX, two bytes: index 1 + position wraps to 0 *)
  specialize (H false (2 ^ 64 - 1) [0; 0] [1; 2; 3]).
  assert (Hw : crypt false (2 ^ 64 - 1) [0; 0] [1; 2; 3] = Some [1; 1])
    by (vm_compute; reflexivity).
  assert (Hs : crypt_spec (2 ^ 64 - 1) [0; 0] [1; 2; 3] = [1; 2])
    by (vm_compute; reflexivity).
  rewrite Hw, Hs in H.
  discriminate H; [discriminate | lia].
Qed.

(** ** Data round trip *)

Lemma crypt_loop_length ck index position key data out :
  crypt_loop ck index position key data = Some out -> length out = length data.
Proof.
  revert index out; induction data as [|b data IH]; intros index out H;
    simpl in H.
  - injection H as <-; reflexivity.
  - destruct (usize_add ck index position); [|discriminate].
    destruct (crypt_loop ck (index + 1) position key data) as [rest|] eqn:Hr;
      [|discriminate].
    injection H as <-; simpl; rewrite (IH _ _ Hr); reflexivity.
Qed.

Lemma crypt_length ck position data key out :
  crypt ck position data key = Some out -> length out = length data.
Proof.
  unfold crypt; cbv zeta; destruct (len key =? 0); [discriminate|].
  apply crypt_loop_length.
Qed.

Lemma skipn_overwrite (d : list Z) (c : nat) (b : list Z) :
  skipn c (overwrite d c b) =
  b ++ skipn (c + length b) (d ++ repeat 0 (c - length d)).
Proof.
  unfold overwrite. rewrite skipn_app, skipn_all2.
  - rewrite length_firstn, length_app, repeat_length.
    replace (c - Nat.min c (length d + (c - length d)))%nat with 0%nat by lia.
    reflexivity.
  - rewrite length_firstn; lia.
Qed.

(** What a successful [put] did. *)
Lemma put_ok ck position data p p1 enc n :
  put ck position data p = Ok p1 (enc, n) ->
  exists t,
    usize_add ck position (offset p) = Some t /\
    fail_seek (file p) = false /\ fail_write (file p) = false /\
    crypt ck position data (key p) = Some enc /\
    n = len enc /\
    p1 = set_file p (set_contents (file p)
                       (overwrite (contents (file p)) (Z.to_nat t) enc)
                       (Z.to_nat t + length enc)).
Proof.
  unfold put, pm_bind, pm_gets, pm_lift, on_file, io_at, pm_ret, get_offset,
    get_key, file_seek, file_write, set_file, set_cursor, set_contents.
  destruct (usize_add ck position (offset p)) as [t|]; [|discriminate].
  destruct (fail_seek (file p)) eqn:Hs; [discriminate|]. cbn.
  destruct (crypt ck position data (key p)) as [e|] eqn:Hc; [|discriminate].
  destruct (fail_write (file p)) eqn:Hw; [discriminate|].
  intros H; inversion H; subst.
  exists t; repeat split; reflexivity.
Qed.

(** C4: for every key of length at least 1, every position and every data
    buffer, a successful [put] followed by a [get] at the same position
    with a buffer of the same length (on a store whose reads do not fail)
    returns exactly the bytes the caller held before [put] encrypted them,
    and reports all of them read. *)
Theorem put_get_roundtrip ck p position data p1 enc n buf :
  key p <> [] ->
  put ck position data p = Ok p1 (enc, n) ->
  fail_read (file p) = false ->
  length buf = length data ->
  exists p2, get ck position buf p1 = Ok p2 (data, len data).
Proof.
  intros Hk Hput Hr Hlen.
  destruct (put_ok _ _ _ _ _ _ _ Hput) as (t & Ht & Hs & Hw & Hc & Hn & ->).
  pose proof (crypt_length _ _ _ _ _ Hc) as Hle.
  pose proof (crypt_involutive _ _ _ _ _ Hc) as Hinv.
  unfold get, pm_bind, pm_gets, pm_lift, on_file, io_at, pm_ret, get_offset,
    get_key, file_seek, file_read, set_file, set_cursor, set_contents.
  cbn. rewrite Ht, Hs. cbn. rewrite Hr. cbn.
  rewrite skipn_overwrite, length_app.
  replace (Nat.min (length buf) (length enc + _)) with (length enc) by lia.
  rewrite firstn_app, firstn_all, Nat.sub_diag, firstn_O, app_nil_r.
  rewrite skipn_all2 by lia. rewrite app_nil_r, Hinv.
  eexists. unfold len; rewrite Hle. reflexivity.
Qed.

Lemma put_get_roundtrip_witness :
  exists p2,
    get true 0 [0; 0; 0; 0]
      (state_of (put true 0 [0x09; 0x20; 0x00; 0xe0] sample_pico) sample_pico)
    = Ok p2 ([0x09; 0x20; 0x00; 0xe0], 4).
Proof.
  apply (put_get_roundtrip true sample_pico 0 [0x09; 0x20; 0x00; 0xe0] _
           [0x49; 0x29; 0x40; 0xe9] 4 [0; 0; 0; 0]).
  - vm_compute; discriminate.
  - vm_compute; reflexivity.
  - reflexivity.
  - reflexivity.
Defined.

(** ** Error kinds of failing writes *)

(** C10: when the store's write fails during [put] on the data region,
    [put] returns the read-failed kind with diagnostic code 1017, while a
    failing write in [put_metadata] returns the write-failed kind (1013) and
    one in [write_header] the write-failed kind (1019). *)
Theorem put_write_error_kind ck p position data :
  fail_seek (file p) = false ->
  fail_write (file p) = true ->
  key p <> [] ->
  0 <= position -> 0 <= offset p ->
  position + offset p < 2 ^ 64 ->
  position + len data <= 2 ^ 64 ->
  (exists p', put ck position data p = Err p' (ReadFailed 1017 EIO))
  /\ (forall start buf,
        0 <= start < get_md_length p -> buf <> [] ->
        0 <= md_start p -> start + md_start p < 2 ^ 64 ->
        exists p', put_metadata ck start buf p = Err p' (WriteFailed 1013 EIO))
  /\ (exists p', write_header p = Err p' (WriteFailed 1019 EIO)).
Proof.
  intros Hs Hw Hk Hp Ho Hpo Hpd.
  split; [|split].
  - unfold put, pm_bind, pm_gets, pm_lift, on_file, io_at, pm_ret, get_offset,
      get_key, file_seek, file_write, set_file, set_cursor.
    unfold usize_add; rewrite add_bits_small by lia.
    rewrite Hs; cbn.
    rewrite crypt_eq_spec by first [exact Hk | lia]. rewrite Hw.
    eexists; reflexivity.
  - intros start buf Hst Hb Hms Hsm.
    unfold put_metadata, pm_bind, pm_gets, pm_lift, on_file, io_at, pm_ret,
      file_seek, file_write, set_file, set_cursor.
    destruct (Z.eqb_spec (get_md_length p) 0) as [E|_]; [lia|].
    destruct (Z.leb_spec (get_md_length p) start) as [E|_]; [lia|].
    cbn [orb].
    unfold usize_add; rewrite add_bits_small by lia.
    destruct (Z.leb_spec (Z.min (get_md_length p - start) (len buf)) 0) as [E|_].
    + destruct buf; [congruence|]. unfold len in E; simpl length in E. lia.
    + rewrite Hs; cbn. rewrite Hw. eexists; reflexivity.
  - unfold write_header, pm_bind, pm_gets, on_file, io_at, pm_ret,
      file_seek, file_write, set_file, set_cursor.
    rewrite Hs; cbn. rewrite Hw. eexists; reflexivity.
Qed.

Lemma put_write_error_kind_witness :
  (exists p', put true 0 [0x09; 0x20] (with_failing_writes sample_pico)
              = Err p' (ReadFailed 1017 EIO))
  /\ (forall start buf,
        0 <= start < get_md_length (with_failing_writes sample_pico) ->
        buf <> [] ->
        0 <= md_start (with_failing_writes sample_pico) ->
        start + md_start (with_failing_writes sample_pico) < 2 ^ 64 ->
        exists p', put_metadata true start buf (with_failing_writes sample_pico)
                   = Err p' (WriteFailed 1013 EIO))
  /\ (exists p', write_header (with_failing_writes sample_pico)
                 = Err p' (WriteFailed 1019 EIO)).
Proof.
  assert (Ho : offset (with_failing_writes sample_pico) = 40)
    by (vm_compute; reflexivity).
  apply put_write_error_kind.
  - reflexivity.
  - reflexivity.
  - vm_compute; discriminate.
  - lia.
  - rewrite Ho; lia.
  - rewrite Ho; lia.
  - unfold len; simpl; lia.
Defined.

(** ** Metadata windows *)

Lemma skipn_firstn_app (k m : nat) (l : list Z) :
  (k <= m)%nat ->
  skipn k (firstn m l) ++ skipn m l = skipn k l.
Proof.
  revert k m; induction l as [|x l IH]; intros k m Hk.
  - destruct k, m; reflexivity.
  - destruct m as [|m].
    + replace k with 0%nat by lia; reflexivity.
    + destruct k as [|k].
      * simpl. f_equal. rewrite <- (firstn_skipn m l) at 3. reflexivity.
      * simpl. apply IH; lia.
Qed.

(** C8: for every container (metadata length a [u32], as [new] and [open]
    make it, and metadata start a [usize] index) and every start and
    buffer: when [start >= metadataLength] or [metadataLength == 0],
    [put_metadata] and [get_metadata] return 0 and leave the container and
    its store untouched; otherwise [put_metadata] writes exactly
    [min(buffer.len(), metadataLength - start)] bytes of the buffer at
    store offset [start + metadataStart] and returns that count, and
    [get_metadata] reads at most that many bytes from the same offset into
    the front of the buffer and returns the count it read. *)
Theorem metadata_bounds ck p start buf :
  0 <= start < 2 ^ 32 ->
  0 <= md_length p < 2 ^ 32 ->
  0 <= md_start p < 2 ^ 63 ->
  ((md_length p = 0 \/ md_length p <= start) ->
     put_metadata ck start buf p = Ok p 0 /\
     get_metadata ck start buf p = Ok p (buf, 0))
  /\
  (0 < md_length p -> start < md_length p ->
     let n := Z.min (len buf) (md_length p - start) in
     let at_ := Z.to_nat (start + md_start p) in
     (forall p' c, put_metadata ck start buf p = Ok p' c ->
        c = n /\
        (n = 0 -> p' = p) /\
        (0 < n -> p' = set_file p (set_contents (file p)
                     (overwrite (contents (file p)) at_ (firstn (Z.to_nat n) buf))
                     (at_ + Z.to_nat n))))
     /\
     (forall p' buf' c, get_metadata ck start buf p = Ok p' (buf', c) ->
        0 <= c <= n /\
        c = Z.min n (len (skipn at_ (contents (file p)))) /\
        buf' = firstn (Z.to_nat c) (skipn at_ (contents (file p)))
               ++ skipn (Z.to_nat c) buf)).
Proof.
  intros Hst Hml Hms.
  assert (Hgm : get_md_length p = md_length p)
    by (unfold get_md_length; apply Z.mod_small; lia).
  split.
  - intros Hz.
    unfold put_metadata, get_metadata, pm_bind, pm_gets, pm_ret.
    rewrite Hgm.
    replace ((md_length p =? 0) || (md_length p <=? start)) with true.
    + split; reflexivity.
    + destruct Hz as [Hz|Hz].
      * rewrite Hz; reflexivity.
      * symmetry; apply orb_true_iff; right; apply Z.leb_le; exact Hz.
  - intros Hpos Hlt n at_.
    assert (Hb : ((md_length p =? 0) || (md_length p <=? start)) = false).
    { apply orb_false_iff; split; [apply Z.eqb_neq | apply Z.leb_gt]; lia. }
    assert (Hn : Z.min (md_length p - start) (len buf) = n)
      by (unfold n; apply Z.min_comm).
    split.
    + intros p' c.
      unfold put_metadata, pm_bind, pm_gets, pm_lift, on_file, io_at, pm_ret,
        file_seek, file_write, set_file, set_cursor, set_contents.
      rewrite Hgm, Hb, Hn. cbv beta iota.
      unfold usize_add; rewrite add_bits_small by lia. cbv beta iota.
      destruct (Z.leb_spec n 0) as [Hn0|Hn0].
      * intros H; inversion H; subst.
        split; [unfold n in *; unfold len in *; lia|].
        split; [reflexivity | lia].
      * destruct (fail_seek (file p)); [discriminate|]. cbn.
        destruct (fail_write (file p)); [discriminate|].
        intros H; inversion H; subst.
        assert (Hlen : length (firstn (Z.to_nat n) buf) = Z.to_nat n).
        { rewrite length_firstn. unfold n, len in *. lia. }
        split; [unfold len; rewrite Hlen, Z2Nat.id by lia; reflexivity|].
        split; [lia|]. intros _.
        unfold set_file, set_contents, overwrite. rewrite Hlen. reflexivity.
    + intros p' buf' c.
      unfold get_metadata, pm_bind, pm_gets, pm_lift, on_file, io_at, pm_ret,
        file_seek, file_read, set_file, set_cursor.
      rewrite Hgm, Hb, Hn. cbv beta iota.
      unfold usize_add; rewrite add_bits_small by lia. cbv beta iota.
      destruct (fail_seek (file p)); [discriminate|]. cbn.
      destruct (fail_read (file p)); [discriminate|].
      intros H; inversion H; subst; clear H.
      fold at_.
      assert (Hlen : length (firstn (Z.to_nat n) buf) = Z.to_nat n).
      { rewrite length_firstn. unfold n, len in *. lia. }
      rewrite Hlen.
      set (avail := skipn at_ (contents (file p))).
      assert (Hk : Z.of_nat (Nat.min (Z.to_nat n) (length avail))
                   = Z.min n (len avail)).
      { unfold len. rewrite Nat2Z.inj_min, Z2Nat.id by (unfold n, len in *; lia).
        reflexivity. }
      rewrite Hk.
      split; [unfold len in *; lia|]. split; [reflexivity|].
      rewrite <- Hk, Nat2Z.id.
      rewrite <- app_assoc, skipn_firstn_app by lia.
      reflexivity.
Qed.

Lemma metadata_bounds_witness :
  put_metadata true 0 martindale sample_pico
  = Ok (set_file sample_pico
          (set_contents (file sample_pico)
             (overwrite (contents (file sample_pico)) 30 martindale) 40)) 10.
Proof.
  assert (Hl : md_length sample_pico = 10) by (vm_compute; reflexivity).
  assert (Hs : md_start sample_pico = 30) by (vm_compute; reflexivity).
  destruct (metadata_bounds true sample_pico 0 martindale) as [_ H];
    [lia | rewrite Hl; lia | rewrite Hs; lia |].
  destruct (H ltac:(rewrite Hl; lia) ltac:(rewrite Hl; lia)) as [Hput _].
  destruct (put_metadata true 0 martindale sample_pico) as [p' c| |] eqn:E.
  - destruct (Hput p' c eq_refl) as (Hc & _ & Hf).
    rewrite Hf, Hc by (vm_compute; reflexivity). vm_compute; reflexivity.
  - vm_compute in E; discriminate E.
  - vm_compute in E; discriminate E.
Defined.

(** ** Header decoding *)

Lemma as_u8_mod (x : Z) : as_u8 x = x mod 256.
Proof.
  unfold as_u8. change 255 with (Z.ones 8). rewrite Z.land_ones by lia.
  reflexivity.
Qed.

(** [lor] of a multiple of [2^n] and a value below [2^n] is their sum. *)
Lemma lor_add (a b n : Z) :
  0 <= n -> a mod 2 ^ n = 0 -> 0 <= b < 2 ^ n -> Z.lor a b = a + b.
Proof.
  intros Hn Ha Hb.
  assert (Hland : Z.land a b = 0).
  { apply Z.bits_inj'; intros m Hm. rewrite Z.land_spec, Z.bits_0.
    destruct (Z.lt_ge_cases m n) as [Hlt|Hge].
    - rewrite <- (Z.mod_pow2_bits_low a n m) by lia. rewrite Ha, Z.bits_0.
      reflexivity.
    - rewrite <- (Z.mod_small b (2 ^ n)) by lia.
      rewrite Z.mod_pow2_bits_high by lia. apply andb_false_r. }
  rewrite Z.add_nocarry_lxor by exact Hland.
  symmetry; apply Z.lxor_lor; exact Hland.
Qed.

Lemma lor_mul_small (a b n : Z) :
  0 <= n -> 0 <= b < 2 ^ n -> Z.lor (a * 2 ^ n) b = a * 2 ^ n + b.
Proof.
  intros Hn Hb. apply (lor_add _ _ n); [exact Hn | | exact Hb].
  apply Z.mod_mul. apply Z.pow_nonzero; lia.
Qed.

Lemma div_mod_small (x d : Z) :
  0 < d -> 0 <= x < d * d -> (x / d) mod d = x / d.
Proof.
  intros Hd Hx. apply Z.mod_small. split.
  - apply Z.div_pos; lia.
  - apply Z.div_lt_upper_bound; lia.
Qed.

Lemma tou16_u16 (x : Z) : 0 <= x < 2 ^ 16 -> tou16 (u16_bytes x) = x.
Proof.
  intros Hx. change (2 ^ 16) with 65536 in Hx.
  unfold tou16, u16_bytes; simpl nth.
  rewrite !as_u8_mod, Z.shiftl_mul_pow2, Z.shiftr_div_pow2 by lia.
  change (2 ^ 8) with 256.
  rewrite (div_mod_small x 256) by lia.
  change 256 with (2 ^ 8) at 2.
  pose proof (Z.mod_pos_bound x 256).
  rewrite lor_mul_small by (try change (2 ^ 8) with 256; lia).
  change (2 ^ 8) with 256. pose proof (Z.div_mod x 256). lia.
Qed.

Lemma tou32_u32 (x : Z) : 0 <= x < 2 ^ 32 -> tou32 (u32_bytes x) = x.
Proof.
  intros Hx. change (2 ^ 32) with 4294967296 in Hx.
  unfold tou32, u32_bytes; cbn [nth].
  rewrite !as_u8_mod, !Z.shiftl_mul_pow2, !Z.shiftr_div_pow2 by lia.
  change (2 ^ 8) with 256; change (2 ^ 16) with 65536;
    change (2 ^ 24) with 16777216.
  (* the four bytes of [x], most significant first *)
  set (b0 := (x / 16777216) mod 256). set (b1 := (x / 65536) mod 256).
  set (b2 := (x / 256) mod 256). set (b3 := x mod 256).
  pose proof (Z.mod_pos_bound (x / 16777216) 256) as B0.
  pose proof (Z.mod_pos_bound (x / 65536) 256) as B1.
  pose proof (Z.mod_pos_bound (x / 256) 256) as B2.
  pose proof (Z.mod_pos_bound x 256) as B3.
  fold b0 b1 b2 b3 in B0, B1, B2, B3.
  assert (M0 : (b0 * 16777216) mod 2 ^ 24 = 0) by (apply Z.mod_mul; lia).
  rewrite (lor_add _ _ 24 ltac:(lia) M0) by (change (2 ^ 24) with 16777216; lia).
  assert (M1 : (b0 * 16777216 + b1 * 65536) mod 2 ^ 16 = 0).
  { replace (b0 * 16777216 + b1 * 65536) with ((b0 * 256 + b1) * 2 ^ 16)
      by (change (2 ^ 16) with 65536; ring).
    apply Z.mod_mul; lia. }
  rewrite (lor_add _ _ 16 ltac:(lia) M1) by (change (2 ^ 16) with 65536; lia).
  assert (M2 : (b0 * 16777216 + b1 * 65536 + b2 * 256) mod 2 ^ 8 = 0).
  { replace (b0 * 16777216 + b1 * 65536 + b2 * 256)
      with ((b0 * 65536 + b1 * 256 + b2) * 2 ^ 8)
      by (change (2 ^ 8) with 256; ring).
    apply Z.mod_mul; lia. }
  rewrite (lor_add _ _ 8 ltac:(lia) M2) by (change (2 ^ 8) with 256; lia).
  (* [x] in base 256 *)
  assert (E0 : x / 16777216 = b0).
  { unfold b0. symmetry; apply Z.mod_small. split.
    - apply Z.div_pos; lia.
    - apply Z.div_lt_upper_bound; lia. }
  pose proof (Z.div_mod x 256) as D3.
  pose proof (Z.div_mod (x / 256) 256) as D2.
  pose proof (Z.div_mod (x / 65536) 256) as D1.
  rewrite Z.div_div in D2 by lia. rewrite Z.div_div in D1 by lia.
  change (256 * 256) with 65536 in D2. change (65536 * 256) with 16777216 in D1.
  fold b1 b2 b3 in D1, D2, D3. rewrite E0 in D1.
  lia.
Qed.
(** ** Reading a header back *)

Lemma read_into_bind {B} (buf b r : list Z) (id : Z) (k : list Z -> PM MemFile B)
    (f : MemFile) :
  fail_read f = false ->
  skipn (cursor f) (contents f) = b ++ r ->
  length b = length buf ->
  pm_bind (read_into buf id) k f = k b (set_cursor f (cursor f + length b)).
Proof.
  intros Hr Hb Hl. unfold read_into, pm_bind, io_at, file_read.
  cbv beta. rewrite Hr. cbv beta iota zeta. unfold pm_ret.
  rewrite Hb.
  assert (Hm : Nat.min (length buf) (length (b ++ r)) = length b).
  { rewrite length_app. lia. }
  rewrite Hm, firstn_app, Nat.sub_diag, firstn_O, app_nil_r, firstn_all.
  rewrite (skipn_all2 buf) by lia. rewrite app_nil_r. reflexivity.
Qed.

Lemma set_cursor_cursor f c : cursor (set_cursor f c) = c.
Proof. reflexivity. Qed.
Lemma set_cursor_contents f c : contents (set_cursor f c) = contents f.
Proof. reflexivity. Qed.
Lemma set_cursor_fail_read f c : fail_read (set_cursor f c) = fail_read f.
Proof. reflexivity. Qed.
Lemma set_cursor_twice f c c' : set_cursor (set_cursor f c) c' = set_cursor f c'.
Proof. reflexivity. Qed.

(** One read of [open_body] from a store holding the expected bytes. *)
Ltac hdr_read b Hr Hc Hcur :=
  erewrite (read_into_bind _ b);
  [ | rewrite ?set_cursor_fail_read; exact Hr
    | rewrite ?set_cursor_contents, ?set_cursor_cursor, Hc, Hcur;
      unfold u16_bytes, u32_bytes; cbn [app skipn Nat.add length]; reflexivity
    | rewrite ?repeat_length;
      first [ reflexivity | unfold len; rewrite Nat2Z.id; reflexivity ] ].

Lemma open_body_header ck major minor off h k rest f :
  0 <= major <= MAJOR -> 0 <= minor < 2 ^ 16 -> 0 <= off < 2 ^ 32 ->
  length h = 16%nat -> 1 <= len k < 2 ^ 16 ->
  contents f = header_bytes major minor off h k ++ rest ->
  cursor f = 0%nat -> fail_read f = false ->
  let ms := KEY_POS + len k in
  let f' := set_cursor f (28 + length k) in
  open_body ck f =
    if off <? ms then Err f' (BadOffset off ms)
    else Ok f' (mkPico major minor off h k true ms (off - ms) f').
Proof.
  intros Hma Hmi Hoff Hh Hk Hc Hcur Hr ms f'.
  unfold open_body; cbv zeta.
  destruct h as [|h0 [|h1 [|h2 [|h3 [|h4 [|h5 [|h6 [|h7 [|h8 [|h9 [|h10
                 [|h11 [|h12 [|h13 [|h14 [|h15 [|]]]]]]]]]]]]]]]]];
    try discriminate Hh.
  unfold header_bytes in Hc. rewrite <- !app_assoc in Hc.
  hdr_read (u16_bytes MAGIC) Hr Hc Hcur.
  rewrite tou16_u16 by (unfold MAGIC; lia). rewrite Z.eqb_refl.
  change (negb true) with false; cbv beta iota.
  hdr_read (u16_bytes major) Hr Hc Hcur.
  hdr_read (u16_bytes minor) Hr Hc Hcur.
  rewrite !tou16_u16 by (unfold MAJOR in *; lia).
  rewrite (proj2 (Z.ltb_ge _ _)) by lia. cbv beta iota.
  hdr_read (u32_bytes off) Hr Hc Hcur.
  hdr_read [h0; h1; h2; h3; h4; h5; h6; h7; h8; h9; h10; h11; h12; h13; h14; h15]
    Hr Hc Hcur.
  hdr_read (u16_bytes (len k mod 2 ^ 16)) Hr Hc Hcur.
  rewrite tou16_u16 by (apply Z.mod_pos_bound; lia).
  rewrite Z.mod_small by lia.
  rewrite (proj2 (Z.eqb_neq _ _)) by lia. cbv beta iota.
  hdr_read k Hr Hc Hcur.
  rewrite !set_cursor_cursor, !set_cursor_twice, Hcur.
  assert (Hkp : KEY_POS = 28) by reflexivity.
  unfold usize_add. rewrite add_bits_small by (rewrite Hkp; lia).
  rewrite tou32_u32 by lia.
  unfold pm_bind, pm_lift, pm_gets, pm_ret, pm_fail. cbv beta iota.
  unfold f', ms. destruct (off <? KEY_POS + len k).
  - rewrite (Z.mod_small (KEY_POS + len k)) by lia. reflexivity.
  - reflexivity.
Qed.

(** C9.  On a store whose bytes from its cursor at 0 are a well-formed
    header (magic, a major version [open] accepts, a non-zero key length
    and the key), [open] fails with [BadOffset] exactly when the stored
    offset is below [KEY_POS + len k] (28 plus the key length), and the
    error then carries the stored offset and that minimum; otherwise it
    succeeds with [md_start = 28 + len k] and [md_length = off - md_start]. *)
Theorem open_bad_offset ck major minor off h k rest f :
  0 <= major <= MAJOR -> 0 <= minor < 2 ^ 16 -> 0 <= off < 2 ^ 32 ->
  length h = 16%nat -> 1 <= len k < 2 ^ 16 ->
  contents f = header_bytes major minor off h k ++ rest ->
  cursor f = 0%nat -> fail_read f = false ->
  ((exists a b, open ck f = Err tt (BadOffset a b)) <-> off < KEY_POS + len k) /\
  (off < KEY_POS + len k -> open ck f = Err tt (BadOffset off (KEY_POS + len k))) /\
  (KEY_POS + len k <= off ->
   exists p, open ck f = Ok tt p /\ md_start p = KEY_POS + len k /\
             md_length p = off - (KEY_POS + len k) /\ key p = k).
Proof.
  intros Hma Hmi Hoff Hh Hk Hc Hcur Hr.
  unfold open. rewrite (open_body_header ck major minor off h k rest f)
    by assumption.
  destruct (Z.ltb_spec off (KEY_POS + len k)) as [Hlt|Hge].
  - split; [|split].
    + split; [intros _; exact Hlt | intros _; eauto].
    + reflexivity.
    + intros Hge; lia.
  - split; [|split].
    + split; [intros (a & b & E); discriminate E | intros Hlt; lia].
    + intros Hlt; lia.
    + intros _. eexists; split; [reflexivity|]. simpl. auto.
Qed.

Lemma open_bad_offset_witness :
  let f := mkFile (header_bytes 1 0 20 (repeat 0 16) [0x40; 0x09]) 0
             false false false false in
  open true f = Err tt (BadOffset 20 30).
Proof.
  intros f.
  refine (proj1 (proj2 (open_bad_offset true 1 0 20 (repeat 0 16) [0x40; 0x09]
                          [] f _ _ _ _ _ _ _ _)) _).
  all: first [ reflexivity | unfold MAJOR; lia | unfold len; simpl; lia
             | vm_compute; reflexivity ].
Defined.

(** C9, as stated: the order of the checks of [open] puts the key length
    check first.  A header whose stored offset 0 is below 28 plus its
    stored key length 0 makes [open] fail with [KeyError], not
    [BadOffset]. *)
Lemma open_bad_offset_counterexample :
  let f := mkFile (header_bytes 1 0 0 (repeat 0 16) []) 0 false false false false in
  tou32 (firstn 4 (skipn 6 (contents f)))
    < KEY_POS + tou16 (firstn 2 (skipn 26 (contents f))) /\
  forall ck, open ck f = Err tt KeyError /\
             ~ (exists a b, open ck f = Err tt (BadOffset a b)).
Proof.
  split.
  - vm_compute. reflexivity.
  - intros ck. assert (E : open ck (mkFile (header_bytes 1 0 0 (repeat 0 16) [])
                                  0 false false false false) = Err tt KeyError)
      by (destruct ck; vm_compute; reflexivity).
    split; [exact E|]. intros (a & b & E'). rewrite E in E'. discriminate E'.
Qed.

(** ** The hash-valid flag *)

(** Splits a goal into its conjuncts (and nothing else: [split] would also
    try [eq_refl] on an equation). *)
Ltac split_and := repeat match goal with |- _ /\ _ => split end.

Lemma put_is_hash_valid ck position data p p1 enc n :
  put ck position data p = Ok p1 (enc, n) -> is_hash_valid p1 = is_hash_valid p.
Proof.
  intros H. destruct (put_ok _ _ _ _ _ _ _ H) as (t & _ & _ & _ & _ & _ & ->).
  reflexivity.
Qed.

(** C1.  [put] does not touch [is_hash_valid]: every successful [put]
    leaves the flag as it found it.  On [sample_opened], whose hash is
    trusted, [put(0, [0x41])] succeeds and the flag stays [true], so a
    later [flush] keeps the stale hash. *)
Theorem put_keeps_hash_valid :
  (forall ck position data p p1 enc n,
     put ck position data p = Ok p1 (enc, n) ->
     is_hash_valid p1 = is_hash_valid p) /\
  is_hash_valid sample_opened = true /\
  exists p1, put true 0 [0x41] sample_opened = Ok p1 ([0x01], 1) /\
             is_hash_valid p1 = true.
Proof.
  split; [exact put_is_hash_valid|]. split; [vm_compute; reflexivity|].
  exists (state_of (put true 0 [0x41] sample_opened) sample_opened).
  split; vm_compute; reflexivity.
Qed.

(** ** The hash recompute *)

(** C2.  [check_hash] hands the whole 4096-byte chunk buffer to the digest
    after each read, not the [num] bytes the read returned.  After
    [put(0, [0x41])] on [sample_pico] the data region is the single byte
    0x41, yet [flush] stores the digest of the 4096 bytes [hashed_stream],
    whatever the digest function. *)
Theorem check_hash_digests_whole_buffer (md5_compute : list Z -> list Z) :
  (exists p, get true 0 [0] sample_written = Ok p ([0x41], 1)) /\
  (exists p, get true 1 [0] sample_written = Ok p ([0x09], 0)) /\
  length hashed_stream = 4096%nat /\ hashed_stream <> [0x41] /\
  check_hash true md5_compute sample_written
    = Ok (set_hash sample_written (md5_compute hashed_stream)) tt /\
  exists p2, flush true md5_compute sample_written = Ok p2 tt /\
             hash p2 = md5_compute hashed_stream.
Proof.
  split; [eexists; vm_compute; reflexivity|].
  split; [eexists; vm_compute; reflexivity|].
  split; [vm_compute; reflexivity|].
  split; [discriminate|].
  split; [vm_compute; reflexivity|].
  exists (state_of (flush true md5_compute sample_written) sample_written).
  split; vm_compute; reflexivity.
Qed.

(** ** Construction *)

(** C3.  [new] has no check on the key: with an empty key it writes a
    header and returns a container whose key is empty (no key is
    generated either).  That container panics on its first [put], in the
    division by the key length of [crypt], and [open] refuses the store
    it wrote with [KeyError]. *)
Theorem new_accepts_empty_key ck :
  exists p, new ck fresh_file [] 0 = Ok tt p /\ key p = [] /\
            put ck 0 [0x41] p = Panic /\
            open ck (set_cursor (file p) 0) = Err tt KeyError.
Proof.
  exists (result_pico (new ck fresh_file [] 0)).
  destruct ck; split_and; vm_compute; reflexivity.
Qed.

(** C7.  [new] computes the data offset as [md_start as u32 + md_length]
    in [u32], which wraps in a build without overflow checks.  With the key
    [[0x01]] and [md_length = 2^32 - 1] the container has [md_start = 29]
    but [offset = 28], so [md_length <> offset - md_start], and [open]
    rejects its own store with [BadOffset(28, 29)].  With overflow checks
    the same call panics. *)
Theorem new_offset_wraps :
  (exists p, new false fresh_file [0x01] (2 ^ 32 - 1) = Ok tt p /\
             md_start p = 29 /\ offset p = 28 /\ md_length p = 2 ^ 32 - 1 /\
             md_start p = KEY_POS + len (key p) /\
             md_length p <> offset p - md_start p /\
             open false (set_cursor (file p) 0) = Err tt (BadOffset 28 29)) /\
  new true fresh_file [0x01] (2 ^ 32 - 1) = Panic.
Proof.
  split; [|vm_compute; reflexivity].
  exists (result_pico (new false fresh_file [0x01] (2 ^ 32 - 1))).
  split_and; try (vm_compute; reflexivity). vm_compute. discriminate.
Qed.

(** * Further properties of the library *)

(** ** Writes into the store *)

Lemma nth_pad (d : list Z) (n i : nat) : nth i (d ++ repeat 0 n) 0 = nth i d 0.
Proof.
  destruct (Nat.lt_ge_cases i (length d)) as [H|H].
  - apply app_nth1; exact H.
  - rewrite app_nth2 by exact H. rewrite (nth_overflow d) by exact H.
    destruct (Nat.lt_ge_cases (i - length d) n).
    + apply nth_repeat.
    + apply nth_overflow; rewrite repeat_length; exact H0.
Qed.

Lemma overwrite_length (d : list Z) (c : nat) (b : list Z) :
  length (overwrite d c b) = Nat.max (length d) (c + length b).
Proof.
  unfold overwrite. rewrite !length_app, length_firstn, length_skipn, length_app,
    repeat_length. lia.
Qed.

Lemma overwrite_nth (d : list Z) (c : nat) (b : list Z) (i : nat) :
  nth i (overwrite d c b) 0 =
  if (i <? c)%nat then nth i d 0
  else if (i <? c + length b)%nat then nth (i - c) b 0
  else nth i d 0.
Proof.
  unfold overwrite.
  set (d' := d ++ repeat 0 (c - length d)).
  assert (Hd' : length d' = Nat.max (length d) c)
    by (unfold d'; rewrite length_app, repeat_length; lia).
  assert (Hf : length (firstn c d') = c) by (rewrite length_firstn; lia).
  destruct (Nat.ltb_spec i c) as [H1|H1].
  - rewrite app_nth1 by lia. rewrite nth_firstn.
    destruct (Nat.ltb_spec i c); [|lia]. apply nth_pad.
  - rewrite app_nth2 by lia. rewrite Hf.
    destruct (Nat.ltb_spec i (c + length b)) as [H2|H2].
    + rewrite app_nth1 by lia. reflexivity.
    + rewrite app_nth2 by lia. rewrite nth_skipn.
      replace (c + length b + (i - c - length b))%nat with i by lia.
      apply nth_pad.
Qed.

Lemma overwrite_ext (d1 d2 : list Z) :
  length d1 = length d2 -> (forall i, nth i d1 0 = nth i d2 0) -> d1 = d2.
Proof. intros Hl Hn. apply (nth_ext _ _ 0 0 Hl). intros i _; apply Hn. Qed.

(** Two writes back to back are one write of both buffers. *)
Lemma overwrite_app (d : list Z) (c c' : nat) (a b : list Z) :
  c' = (c + length a)%nat ->
  overwrite (overwrite d c a) c' b = overwrite d c (a ++ b).
Proof.
  intros ->. apply overwrite_ext.
  - rewrite !overwrite_length, length_app. lia.
  - intros i. rewrite !overwrite_nth, length_app.
    destruct (Nat.ltb_spec i (c + length a)), (Nat.ltb_spec i c),
      (Nat.ltb_spec i (c + length a + length b)),
      (Nat.ltb_spec i (c + (length a + length b))); try lia;
      rewrite ?overwrite_nth;
      repeat match goal with |- context [(?x <? ?y)%nat] =>
        destruct (Nat.ltb_spec x y); try lia end;
      try reflexivity.
    + rewrite app_nth1 by lia. reflexivity.
    + rewrite app_nth2 by lia. f_equal. lia.
Qed.

(** [write_header] on a store whose seeks and writes succeed: the header
    bytes over the start of the store, the cursor just after them. *)
Lemma write_header_ok p :
  fail_seek (file p) = false -> fail_write (file p) = false ->
  let hb := header_bytes (major p) (minor p) (offset p) (hash p) (key p) in
  write_header p =
    Ok (set_file p (set_contents (file p) (overwrite (contents (file p)) 0 hb)
                      (length hb))) tt.
Proof.
  destruct p as [ma mi off h k v ms ml [d c fs fr fw ff]]; cbn [file fail_seek fail_write].
  intros -> ->.
  unfold write_header, pm_bind, on_file, io_at, pm_gets, pm_ret, file_seek,
    file_write, get_version, get_offset, get_hash, get_key.
  cbn -[overwrite u16_bytes u32_bytes len Z.pow Z.modulo].
  repeat (rewrite overwrite_app by (rewrite ?length_app; lia)).
  unfold header_bytes. rewrite <- ?app_assoc, ?length_app, ?Nat.add_assoc.
  reflexivity.
Qed.

Lemma new_ok ck f k mdl :
  fail_seek f = false -> fail_write f = false -> fail_flush f = false ->
  0 <= mdl -> KEY_POS + len k + mdl < 2 ^ 32 ->
  let off := KEY_POS + len k + mdl in
  let hb := header_bytes MAJOR MINOR off (repeat 0 16) k in
  new ck f k mdl =
    Ok tt (mkPico MAJOR MINOR off (repeat 0 16) k false (KEY_POS + len k) mdl
             (set_contents f (overwrite (contents f) 0 hb) (length hb))).
Proof.
  intros Hs Hw Hf Hm Hb off hb.
  assert (Hk : KEY_POS = 28) by reflexivity.
  assert (Hl : 0 <= len k) by (unfold len; lia).
  unfold new, usize_add, u32_add.
  rewrite add_bits_small by lia.
  rewrite (Z.mod_small (len k + KEY_POS)) by lia.
  rewrite add_bits_small by lia.
  unfold pm_bind at 1.
  rewrite write_header_ok by assumption.
  unfold on_file, io_at, file_flush. cbn [file set_file set_contents fail_flush].
  rewrite Hf.
  replace (len k + KEY_POS) with (KEY_POS + len k) by lia.
  reflexivity.
Qed.

(** X: [new] then [open] on the store it wrote, read from its start: the
    container comes back with the same version, offset, hash, key and
    metadata layout, and a trusted hash. *)
Theorem new_open_roundtrip ck f k mdl :
  fail_seek f = false -> fail_write f = false -> fail_flush f = false ->
  fail_read f = false ->
  1 <= len k < 2 ^ 16 -> 0 <= mdl -> KEY_POS + len k + mdl < 2 ^ 32 ->
  exists p p',
    new ck f k mdl = Ok tt p /\
    offset p = KEY_POS + len k + mdl /\ md_start p = KEY_POS + len k /\
    md_length p = mdl /\
    open ck (set_cursor (file p) 0) = Ok tt p' /\
    major p' = major p /\ minor p' = minor p /\ offset p' = offset p /\
    hash p' = hash p /\ key p' = k /\ md_start p' = md_start p /\
    md_length p' = md_length p /\ is_hash_valid p' = true.
Proof.
  intros Hs Hw Hf Hr Hk Hm Hb.
  assert (HK : KEY_POS = 28) by reflexivity.
  rewrite (new_ok ck f k mdl Hs Hw Hf Hm Hb).
  set (off := KEY_POS + len k + mdl).
  set (hb := header_bytes MAJOR MINOR off (repeat 0 16) k).
  set (f1 := set_contents f (overwrite (contents f) 0 hb) (length hb)).
  eexists; eexists. split; [reflexivity|]. cbn [offset md_start md_length].
  split; [reflexivity|]. split; [reflexivity|]. split; [reflexivity|].
  unfold open.
  rewrite (open_body_header ck MAJOR MINOR off (repeat 0 16) k
             (skipn (0 + length hb) (contents f ++ repeat 0 (0 - length (contents f))))).
  - rewrite (proj2 (Z.ltb_ge _ _)) by lia.
    split; [reflexivity|].
    cbn [major minor offset hash key md_start md_length is_hash_valid].
    split_and; try (unfold off; lia); reflexivity.
  - unfold MAJOR; lia.
  - unfold MINOR; lia.
  - unfold off; lia.
  - reflexivity.
  - exact Hk.
  - unfold f1; cbn [set_cursor set_contents contents]. unfold overwrite.
    rewrite firstn_O. reflexivity.
  - reflexivity.
  - exact Hr.
Qed.

Lemma flush_valid_ok ck md5 p :
  is_hash_valid p = true ->
  fail_seek (file p) = false -> fail_write (file p) = false ->
  fail_flush (file p) = false ->
  let hb := header_bytes (major p) (minor p) (offset p) (hash p) (key p) in
  flush ck md5 p =
    Ok (set_file p (set_contents (file p) (overwrite (contents (file p)) 0 hb)
                      (length hb))) tt.
Proof.
  intros Hv Hs Hw Hf hb.
  unfold flush, check_hash. unfold pm_bind at 1. unfold pm_bind at 1.
  unfold pm_gets. rewrite Hv. unfold pm_ret at 1.
  unfold pm_bind at 1. rewrite write_header_ok by assumption.
  unfold pm_bind, on_file, io_at, file_flush, pm_ret.
  cbn [file set_file set_contents fail_flush]. rewrite Hf. reflexivity.
Qed.

(** X: [flush] on a container whose hash is trusted rewrites the header
    from the container's fields and nothing else: [open] on the flushed
    store gives back the same version, offset, hash and key, and every
    byte after the header keeps its value. *)
Theorem flush_open_roundtrip ck md5 p :
  is_hash_valid p = true ->
  fail_seek (file p) = false -> fail_write (file p) = false ->
  fail_flush (file p) = false -> fail_read (file p) = false ->
  0 <= major p <= MAJOR -> 0 <= minor p < 2 ^ 16 -> 0 <= offset p < 2 ^ 32 ->
  length (hash p) = 16%nat -> 1 <= len (key p) < 2 ^ 16 ->
  KEY_POS + len (key p) <= offset p ->
  exists p1 p2,
    flush ck md5 p = Ok p1 tt /\
    (forall i, (28 + length (key p) <= i)%nat ->
       nth i (contents (file p1)) 0 = nth i (contents (file p)) 0) /\
    open ck (set_cursor (file p1) 0) = Ok tt p2 /\
    major p2 = major p /\ minor p2 = minor p /\ offset p2 = offset p /\
    hash p2 = hash p /\ key p2 = key p /\
    md_start p2 = KEY_POS + len (key p) /\
    md_length p2 = offset p - (KEY_POS + len (key p)).
Proof.
  intros Hv Hs Hw Hf Hr Hma Hmi Hoff Hh Hk Hge.
  rewrite (flush_valid_ok ck md5 p Hv Hs Hw Hf).
  set (hb := header_bytes (major p) (minor p) (offset p) (hash p) (key p)).
  assert (Hhb : length hb = (28 + length (key p))%nat).
  { unfold hb, header_bytes. rewrite !length_app, Hh. reflexivity. }
  eexists; eexists. split; [reflexivity|]. split.
  - intros i Hi. cbn [file set_file set_contents contents].
    rewrite overwrite_nth, Hhb.
    destruct (Nat.ltb_spec i 0); [lia|].
    destruct (Nat.ltb_spec i (0 + (28 + length (key p)))); [lia|].
    reflexivity.
  - unfold open.
    rewrite (open_body_header ck (major p) (minor p) (offset p) (hash p) (key p)
      (skipn (0 + length hb)
         (contents (file p) ++ repeat 0 (0 - length (contents (file p)))))).
    + rewrite (proj2 (Z.ltb_ge _ _)) by lia.
      split; [reflexivity|]. cbn. repeat split; reflexivity.
    + exact Hma.
    + exact Hmi.
    + exact Hoff.
    + exact Hh.
    + exact Hk.
    + cbn [set_file set_cursor set_contents contents file]. unfold overwrite.
      rewrite firstn_O. reflexivity.
    + reflexivity.
    + exact Hr.
Qed.

(** ** What [open] does with a store that is not a full header *)

(** A read of [open] from any store whose reads succeed: the bytes the
    store has, up to the buffer length, over the front of the buffer. *)
Lemma read_into_any {B} (buf : list Z) (id : Z) (k : list Z -> PM MemFile B)
    (f : MemFile) :
  fail_read f = false ->
  let got := firstn (length buf) (skipn (cursor f) (contents f)) in
  pm_bind (read_into buf id) k f =
    k (got ++ skipn (length got) buf) (set_cursor f (cursor f + length got)).
Proof.
  intros Hr got. unfold read_into, pm_bind, io_at, file_read.
  cbv beta. rewrite Hr. cbv beta iota zeta. unfold pm_ret.
  assert (Hg : length got =
               Nat.min (length buf) (length (skipn (cursor f) (contents f))))
    by (unfold got; rewrite length_firstn; reflexivity).
  rewrite <- Hg.
  assert (Hf : firstn (length got) (skipn (cursor f) (contents f)) = got).
  { unfold got at 2. rewrite Hg.
    destruct (Nat.le_ge_cases (length buf) (length (skipn (cursor f) (contents f))))
      as [H|H].
    - rewrite Nat.min_l by exact H. reflexivity.
    - rewrite Nat.min_r by exact H. rewrite !firstn_all2 by lia. reflexivity. }
  rewrite Hf. reflexivity.
Qed.

(** X: [open] checks the magic number first.  When the first two bytes at
    the cursor (padded with zeros when the store has fewer) do not decode
    to [MAGIC], [open] fails with [NotPico] carrying the decoded value; an
    empty store (or a cursor at its end) gives [NotPico(0)], not a read
    error. *)
Theorem open_not_pico ck f :
  fail_read f = false ->
  let avail := firstn 2 (skipn (cursor f) (contents f)) in
  let magic := tou16 (avail ++ skipn (length avail) [0; 0]) in
  (magic <> MAGIC -> open ck f = Err tt (NotPico magic)) /\
  ((length (contents f) <= cursor f)%nat -> open ck f = Err tt (NotPico 0)).
Proof.
  intros Hr avail magic.
  assert (Hopen : magic <> MAGIC -> open ck f = Err tt (NotPico magic)).
  { intros Hm. unfold open, open_body; cbv zeta.
    rewrite (read_into_any [0; 0] 1002 _ f Hr). cbv zeta.
    change (length [0; 0]) with 2%nat. fold avail. fold magic.
    rewrite (proj2 (Z.eqb_neq _ _) Hm). reflexivity. }
  split; [exact Hopen|].
  intros Hend.
  assert (Ha : avail = []).
  { unfold avail. rewrite skipn_all2 by exact Hend. reflexivity. }
  assert (Hm : magic = 0) by (unfold magic; rewrite Ha; reflexivity).
  rewrite <- Hm. apply Hopen. rewrite Hm. unfold MAGIC. lia.
Qed.

(** X: after the magic number, [open] checks the major version: a store
    that starts with [MAGIC] and a major version above [MAJOR] makes [open]
    fail with [BadVersion] carrying the stored major and minor versions,
    whatever follows them (even nothing). *)
Theorem open_bad_version ck major minor rest f :
  MAJOR < major < 2 ^ 16 -> 0 <= minor < 2 ^ 16 ->
  contents f = u16_bytes MAGIC ++ u16_bytes major ++ u16_bytes minor ++ rest ->
  cursor f = 0%nat -> fail_read f = false ->
  open ck f = Err tt (BadVersion major minor).
Proof.
  intros Hma Hmi Hc Hcur Hr.
  unfold open, open_body; cbv zeta.
  hdr_read (u16_bytes MAGIC) Hr Hc Hcur.
  rewrite tou16_u16 by (unfold MAGIC; lia). rewrite Z.eqb_refl.
  change (negb true) with false; cbv beta iota.
  hdr_read (u16_bytes major) Hr Hc Hcur.
  hdr_read (u16_bytes minor) Hr Hc Hcur.
  rewrite !tou16_u16 by (unfold MAJOR in *; lia).
  rewrite (proj2 (Z.ltb_lt _ _)) by lia. reflexivity.
Qed.

Lemma skipn_repeat_sub {A} (x : A) k m :
  skipn k (repeat x m) = repeat x (m - k).
Proof.
  revert m; induction k as [|k IH]; intros [|m]; cbn; auto.
Qed.

(** X: [open] does not check how many bytes its reads return.  On a store
    that ends inside the key (fewer than the stored key length of bytes
    after the key length field), [open] succeeds and the missing key bytes
    are zeros. *)
Theorem open_short_key ck major minor off h n kp f :
  0 <= major <= MAJOR -> 0 <= minor < 2 ^ 16 -> 0 <= off < 2 ^ 32 ->
  length h = 16%nat -> 1 <= n < 2 ^ 16 -> len kp < n -> KEY_POS + n <= off ->
  contents f = u16_bytes MAGIC ++ u16_bytes major ++ u16_bytes minor ++
               u32_bytes off ++ h ++ u16_bytes n ++ kp ->
  cursor f = 0%nat -> fail_read f = false ->
  exists p, open ck f = Ok tt p /\
            key p = kp ++ repeat 0 (Z.to_nat n - length kp) /\
            md_start p = KEY_POS + n /\ offset p = off /\ hash p = h.
Proof.
  intros Hma Hmi Hoff Hh Hn Hkp Hge Hc Hcur Hr.
  unfold open, open_body; cbv zeta.
  destruct h as [|h0 [|h1 [|h2 [|h3 [|h4 [|h5 [|h6 [|h7 [|h8 [|h9 [|h10
                 [|h11 [|h12 [|h13 [|h14 [|h15 [|]]]]]]]]]]]]]]]]];
    try discriminate Hh.
  hdr_read (u16_bytes MAGIC) Hr Hc Hcur.
  rewrite tou16_u16 by (unfold MAGIC; lia). rewrite Z.eqb_refl.
  change (negb true) with false; cbv beta iota.
  hdr_read (u16_bytes major) Hr Hc Hcur.
  hdr_read (u16_bytes minor) Hr Hc Hcur.
  rewrite !tou16_u16 by (unfold MAJOR in *; lia).
  rewrite (proj2 (Z.ltb_ge _ _)) by lia. cbv beta iota.
  hdr_read (u32_bytes off) Hr Hc Hcur.
  hdr_read [h0; h1; h2; h3; h4; h5; h6; h7; h8; h9; h10; h11; h12; h13; h14; h15]
    Hr Hc Hcur.
  hdr_read (u16_bytes n) Hr Hc Hcur.
  rewrite tou16_u16 by lia.
  rewrite (proj2 (Z.eqb_neq _ _)) by lia. cbv beta iota.
  rewrite read_into_any by exact Hr.
  rewrite ?set_cursor_contents, ?set_cursor_cursor, Hc, Hcur.
  rewrite tou32_u32 by lia.
  unfold u16_bytes, u32_bytes; cbn [app skipn length Nat.add].
  assert (Hl : (length kp <= Z.to_nat n)%nat) by (unfold len in Hkp; lia).
  rewrite repeat_length, (firstn_all2 kp) by exact Hl.
  rewrite skipn_repeat_sub.
  unfold pm_bind at 1, pm_lift, usize_add.
  rewrite add_bits_small by (unfold KEY_POS, KEYLEN_POS, KEYLEN_LEN in *; lia).
  rewrite (proj2 (Z.ltb_ge _ _)) by lia.
  eexists. split; [reflexivity|]. cbn [key md_start offset hash].
  split_and; reflexivity.
Qed.

Lemma write_header_seek_err p :
  fail_seek (file p) = true -> write_header p = Err p (SeekFailed 1018 EIO).
Proof.
  destruct p as [ma mi off h k v ms ml [d c fs fr fw ff]]; cbn [file fail_seek].
  intros ->. reflexivity.
Qed.

Lemma write_header_write_err p :
  fail_seek (file p) = false -> fail_write (file p) = true ->
  write_header p = Err (set_file p (set_cursor (file p) 0)) (WriteFailed 1019 EIO).
Proof.
  destruct p as [ma mi off h k v ms ml [d c fs fr fw ff]];
    cbn [file fail_seek fail_write].
  intros -> ->. reflexivity.
Qed.

(** X: [write_header] seeks to the start of the store and writes the
    header there: the magic number, the version, the offset, the hash, the
    key length and the key, big-endian, leaving the cursor after the key
    and every later byte as it was.  A failing seek changes nothing and
    gives [SeekFailed(1018)]; a failing write stops at the magic number
    with [WriteFailed(1019)] and the cursor at 0. *)
Theorem write_header_effect p :
  (fail_seek (file p) = true -> write_header p = Err p (SeekFailed 1018 EIO)) /\
  (fail_seek (file p) = false -> fail_write (file p) = true ->
     write_header p = Err (set_file p (set_cursor (file p) 0)) (WriteFailed 1019 EIO)) /\
  (fail_seek (file p) = false -> fail_write (file p) = false ->
     write_header p =
       Ok (set_file p
             (set_contents (file p)
                (overwrite (contents (file p)) 0
                   (header_bytes (major p) (minor p) (offset p) (hash p) (key p)))
                (length (header_bytes (major p) (minor p) (offset p) (hash p) (key p)))))
          tt).
Proof.
  split; [apply write_header_seek_err|].
  split; [apply write_header_write_err|].
  apply write_header_ok.
Qed.

(** X: [new] reports the store's failures in the order it makes its
    calls: a failing seek gives [SeekFailed(1018)], a failing write
    [WriteFailed(1019)] (the magic number is the first write), and a
    failing flush after a complete header [WriteFailed(1001)]. *)
Theorem new_io_errors ck f k mdl :
  0 <= mdl -> KEY_POS + len k + mdl < 2 ^ 32 ->
  (fail_seek f = true -> new ck f k mdl = Err tt (SeekFailed 1018 EIO)) /\
  (fail_seek f = false -> fail_write f = true ->
     new ck f k mdl = Err tt (WriteFailed 1019 EIO)) /\
  (fail_seek f = false -> fail_write f = false -> fail_flush f = true ->
     new ck f k mdl = Err tt (WriteFailed 1001 EIO)).
Proof.
  intros Hm Hb.
  assert (Hk : KEY_POS = 28) by reflexivity.
  assert (Hl : 0 <= len k) by (unfold len; lia).
  unfold new, usize_add, u32_add.
  rewrite add_bits_small by lia.
  rewrite (Z.mod_small (len k + KEY_POS)) by lia.
  rewrite add_bits_small by lia.
  split; [|split]; unfold pm_bind at 1.
  - intros Hs. rewrite write_header_seek_err by exact Hs. reflexivity.
  - intros Hs Hw. rewrite write_header_write_err by assumption. reflexivity.
  - intros Hs Hw Hf. rewrite write_header_ok by assumption.
    unfold on_file, io_at, file_flush. cbn [file set_file set_contents fail_flush].
    rewrite Hf. reflexivity.
Qed.

(** X: [open] refuses a zero key length: a store with a well-formed
    magic number and version whose key length field is 0 makes [open] fail
    with [KeyError], whatever the offset and whatever follows. *)
Theorem open_zero_key ck major minor off h rest f :
  0 <= major <= MAJOR -> 0 <= minor < 2 ^ 16 -> length h = 16%nat ->
  contents f = u16_bytes MAGIC ++ u16_bytes major ++ u16_bytes minor ++
               u32_bytes off ++ h ++ u16_bytes 0 ++ rest ->
  cursor f = 0%nat -> fail_read f = false ->
  open ck f = Err tt KeyError.
Proof.
  intros Hma Hmi Hh Hc Hcur Hr.
  unfold open, open_body; cbv zeta.
  destruct h as [|h0 [|h1 [|h2 [|h3 [|h4 [|h5 [|h6 [|h7 [|h8 [|h9 [|h10
                 [|h11 [|h12 [|h13 [|h14 [|h15 [|]]]]]]]]]]]]]]]]];
    try discriminate Hh.
  hdr_read (u16_bytes MAGIC) Hr Hc Hcur.
  rewrite tou16_u16 by (unfold MAGIC; lia). rewrite Z.eqb_refl.
  change (negb true) with false; cbv beta iota.
  hdr_read (u16_bytes major) Hr Hc Hcur.
  hdr_read (u16_bytes minor) Hr Hc Hcur.
  rewrite !tou16_u16 by (unfold MAJOR in *; lia).
  rewrite (proj2 (Z.ltb_ge _ _)) by lia. cbv beta iota.
  hdr_read (u32_bytes off) Hr Hc Hcur.
  hdr_read [h0; h1; h2; h3; h4; h5; h6; h7; h8; h9; h10; h11; h12; h13; h14; h15]
    Hr Hc Hcur.
  hdr_read (u16_bytes 0) Hr Hc Hcur.
  reflexivity.
Qed.

(** ** Where [put] and [put_metadata] write *)

Lemma overwrite_outside (d : list Z) (c : nat) (b : list Z) (i : nat) :
  (i < c \/ c + length b <= i)%nat -> nth i (overwrite d c b) 0 = nth i d 0.
Proof.
  intros H. rewrite overwrite_nth.
  destruct (Nat.ltb_spec i c); [reflexivity|].
  destruct (Nat.ltb_spec i (c + length b)); [lia | reflexivity].
Qed.

Lemma overwrite_inside (d : list Z) (c : nat) (b : list Z) (i : nat) :
  (i < length b)%nat -> nth (c + i) (overwrite d c b) 0 = nth i b 0.
Proof.
  intros H. rewrite overwrite_nth.
  destruct (Nat.ltb_spec (c + i) c); [lia|].
  destruct (Nat.ltb_spec (c + i) (c + length b)); [|lia].
  f_equal; lia.
Qed.

(** X: a successful [put] at [position] writes the encrypted buffer at
    store index [position + offset] and nothing else: every byte before
    that index or past the written bytes keeps its value (a gap past the
    old end reads as zeros), the cursor ends after the written bytes, the
    count is the buffer length, and the container's fields are unchanged. *)
Theorem put_writes_only_target ck position data p p1 enc n :
  0 <= position -> 0 <= offset p -> position + offset p < 2 ^ 64 ->
  put ck position data p = Ok p1 (enc, n) ->
  let t := Z.to_nat (position + offset p) in
  (forall i, (i < t \/ t + length data <= i)%nat ->
     nth i (contents (file p1)) 0 = nth i (contents (file p)) 0) /\
  (forall i, (i < length data)%nat ->
     nth (t + i) (contents (file p1)) 0 = nth i enc 0) /\
  cursor (file p1) = (t + length data)%nat /\ n = len data /\
  p1 = set_file p (file p1).
Proof.
  intros Hp Ho Hb Hput t.
  destruct (put_ok _ _ _ _ _ _ _ Hput) as (t' & Ht & _ & _ & Hc & Hn & ->).
  unfold usize_add in Ht. rewrite add_bits_small in Ht by lia.
  injection Ht as <-. fold t.
  pose proof (crypt_length _ _ _ _ _ Hc) as Hle.
  cbn [file set_file set_contents contents cursor]. rewrite Hle.
  split; [|split; [|split; [|split]]].
  - intros i Hi. apply overwrite_outside. lia.
  - intros i Hi. apply overwrite_inside. lia.
  - reflexivity.
  - rewrite Hn; unfold len; rewrite Hle; reflexivity.
  - reflexivity.
Qed.

(** What a successful [put_metadata] did. *)
Lemma put_metadata_ok ck p start buf p' c :
  0 <= start -> 0 <= md_start p -> start + md_start p < 2 ^ 64 ->
  0 <= md_length p < 2 ^ 32 ->
  put_metadata ck start buf p = Ok p' c ->
  let n := Z.min (md_length p - start) (len buf) in
  (p' = p /\ c = 0 /\ (md_length p <= start \/ n <= 0)) \/
  (start < md_length p /\ 0 < n /\ c = n /\
   fail_seek (file p) = false /\ fail_write (file p) = false /\
   p' = set_file p (set_contents (file p)
          (overwrite (contents (file p)) (Z.to_nat (start + md_start p))
             (firstn (Z.to_nat n) buf))
          (Z.to_nat (start + md_start p) + Z.to_nat n))).
Proof.
  intros Hs Hms Hb Hml H n.
  assert (Hgm : get_md_length p = md_length p)
    by (unfold get_md_length; apply Z.mod_small; lia).
  revert H.
  unfold put_metadata, pm_bind, pm_gets, pm_lift, on_file, io_at, pm_ret,
    file_seek, file_write.
  rewrite Hgm.
  destruct (Z.eqb_spec (md_length p) 0) as [H0|H0]; cbn [orb].
  { intros H; injection H as <- <-. left. split_and; [reflexivity | reflexivity | lia]. }
  destruct (Z.leb_spec (md_length p) start) as [H1|H1].
  { intros H; injection H as <- <-. left. split_and; [reflexivity | reflexivity | lia]. }
  unfold usize_add; rewrite add_bits_small by lia. fold n.
  destruct (Z.leb_spec n 0) as [H2|H2].
  { intros H; injection H as <- <-. left. split_and; [reflexivity | reflexivity | lia]. }
  destruct (fail_seek (file p)) eqn:Hsk; [discriminate|].
  cbn [file set_file set_cursor fail_write contents cursor].
  destruct (fail_write (file p)) eqn:Hw; [discriminate|].
  intros H; injection H as <- <-.
  assert (Hlen : length (firstn (Z.to_nat n) buf) = Z.to_nat n).
  { rewrite length_firstn. unfold n, len in *. lia. }
  right. split_and; try reflexivity; try lia.
  - unfold len; rewrite Hlen; lia.
  - rewrite Hlen. reflexivity.
Qed.

(** X: [put_metadata] never writes outside the metadata region: after a
    successful call every store byte before [md_start + start] or from
    [md_start + md_length] on keeps its value (so the header and the data
    after a metadata region ending at [offset] are untouched), the count is
    at most the buffer length, and the container's fields, including the
    hash state, are unchanged. *)
Theorem put_metadata_stays_in_region ck p start buf p' c :
  0 <= start -> 0 <= md_start p -> start + md_start p < 2 ^ 64 ->
  0 <= md_length p < 2 ^ 32 ->
  put_metadata ck start buf p = Ok p' c ->
  (forall i, (i < Z.to_nat (md_start p + start) \/
              Z.to_nat (md_start p + md_length p) <= i)%nat ->
     nth i (contents (file p')) 0 = nth i (contents (file p)) 0) /\
  0 <= c <= len buf /\
  p' = set_file p (file p').
Proof.
  intros Hs Hms Hb Hml H.
  destruct (put_metadata_ok ck p start buf p' c Hs Hms Hb Hml H)
    as [(-> & -> & _) | (Hlt & Hn & -> & _ & _ & ->)].
  - split_and; [reflexivity | unfold len; lia | unfold len; lia |].
    destruct p; reflexivity.
  - split_and.
    + intros i Hi. cbn [file set_file set_contents contents].
      apply overwrite_outside. rewrite length_firstn.
      assert (Z.min (md_length p - start) (len buf) <= md_length p - start)
        by apply Z.le_min_l.
      unfold len in *. lia.
    + lia.
    + apply Z.le_min_r.
    + reflexivity.
Qed.

(** [get_metadata] on a store whose seeks and reads succeed. *)
Lemma get_metadata_read ck p start buf :
  0 <= start -> 0 <= md_start p -> start + md_start p < 2 ^ 64 ->
  0 <= md_length p < 2 ^ 32 ->
  fail_seek (file p) = false -> fail_read (file p) = false ->
  start < md_length p ->
  let max := Z.to_nat (Z.min (md_length p - start) (len buf)) in
  let at_ := Z.to_nat (start + md_start p) in
  let k := Nat.min max (length (skipn at_ (contents (file p)))) in
  get_metadata ck start buf p =
    Ok (set_file p (set_cursor (file p) (at_ + k)))
       (firstn k (skipn at_ (contents (file p))) ++ skipn k buf, Z.of_nat k).
Proof.
  intros Hs Hms Hb Hml Hsk Hr Hlt max at_ k.
  assert (Hgm : get_md_length p = md_length p)
    by (unfold get_md_length; apply Z.mod_small; lia).
  assert (Hc : ((md_length p =? 0) || (md_length p <=? start)) = false).
  { apply orb_false_iff; split; [apply Z.eqb_neq | apply Z.leb_gt]; lia. }
  unfold get_metadata, pm_bind, pm_gets, pm_lift, on_file, io_at, pm_ret,
    file_seek, file_read.
  rewrite Hgm, Hc. cbv beta iota.
  unfold usize_add; rewrite add_bits_small by lia. cbv beta iota.
  rewrite Hsk. cbn [file set_file set_cursor fail_read contents cursor].
  rewrite Hr. cbv beta iota zeta. fold max at_.
  assert (Hlen : length (firstn max buf) = max).
  { rewrite length_firstn. unfold max, len. lia. }
  rewrite Hlen. fold k.
  rewrite <- app_assoc, skipn_firstn_app by lia.
  reflexivity.
Qed.

(** X: metadata round trip: after a successful [put_metadata] at [start],
    [get_metadata] at the same start with a buffer of the same length
    returns the count [put_metadata] returned and reads back exactly the
    bytes it wrote (the front of the caller's buffer, in plain text),
    leaving the rest of its buffer as it was. *)
Theorem metadata_roundtrip ck p start buf p1 c buf2 :
  0 <= start -> 0 <= md_start p -> start + md_start p < 2 ^ 64 ->
  0 <= md_length p < 2 ^ 32 ->
  fail_seek (file p) = false -> fail_read (file p) = false ->
  put_metadata ck start buf p = Ok p1 c ->
  length buf2 = length buf ->
  exists p2,
    get_metadata ck start buf2 p1 =
      Ok p2 (firstn (Z.to_nat c) buf ++ skipn (Z.to_nat c) buf2, c).
Proof.
  intros Hs Hms Hb Hml Hsk Hr Hput Hl2.
  destruct (put_metadata_ok ck p start buf p1 c Hs Hms Hb Hml Hput)
    as [(-> & -> & Hz) | (Hlt & Hn & -> & _ & _ & ->)].
  - cbn [Z.to_nat firstn skipn app].
    destruct (Z.leb_spec (md_length p) start) as [Hle|Hgt].
    + assert (Hgm : get_md_length p = md_length p)
        by (unfold get_md_length; apply Z.mod_small; lia).
      unfold get_metadata, pm_bind, pm_gets, pm_ret. rewrite Hgm.
      replace ((md_length p =? 0) || (md_length p <=? start)) with true.
      * eexists; reflexivity.
      * symmetry; apply orb_true_iff; right; apply Z.leb_le; exact Hle.
    + destruct Hz as [Hz|Hz]; [lia|].
      rewrite (get_metadata_read ck p start buf2) by assumption.
      assert (Hb0 : length buf2 = 0%nat).
      { rewrite Hl2. unfold len in Hz. lia. }
      destruct buf2; [|discriminate Hb0].
      assert (Hm0 : Z.min (md_length p - start) (len (@nil Z)) = 0)
        by (unfold len; cbn [length Z.of_nat]; lia).
      rewrite Hm0. cbn [Z.to_nat Nat.min firstn skipn app].
      eexists; reflexivity.
  - set (n := Z.min (md_length p - start) (len buf)) in *.
    set (at_ := Z.to_nat (start + md_start p)).
    rewrite (get_metadata_read ck _ start buf2) by (cbn [set_file md_start md_length file set_contents fail_seek fail_read]; assumption).
    cbn [set_file md_start md_length file set_contents contents].
    fold at_.
    assert (Hn2 : Z.min (md_length p - start) (len buf2) = n)
      by (unfold n, len; rewrite Hl2; reflexivity).
    rewrite Hn2.
    assert (Hlen : length (firstn (Z.to_nat n) buf) = Z.to_nat n).
    { rewrite length_firstn. unfold n, len in *. lia. }
    rewrite skipn_overwrite, length_app, Hlen.
    rewrite Nat.min_l by lia.
    rewrite firstn_app, Hlen, Nat.sub_diag, firstn_O, app_nil_r, firstn_firstn,
      Nat.min_id, Z2Nat.id by lia.
    eexists; reflexivity.
Qed.

(** ** How the cipher and [put] compose *)

Lemma add_bits_sum ck w a b a' b' :
  a + b = a' + b' -> add_bits ck w a b = add_bits ck w a' b'.
Proof. intros H. unfold add_bits. rewrite H. reflexivity. Qed.

Lemma crypt_loop_shift ck index m position key data :
  crypt_loop ck (index + m) position key data =
  crypt_loop ck index (position + m) key data.
Proof.
  revert index; induction data as [|b data IH]; intros index; [reflexivity|].
  cbn [crypt_loop]. unfold usize_add.
  rewrite (add_bits_sum ck 64 (index + m) position index (position + m)) by lia.
  replace (index + m + 1) with (index + 1 + m) by lia.
  rewrite IH. reflexivity.
Qed.

Lemma crypt_loop_app ck index position key a b :
  crypt_loop ck index position key (a ++ b) =
  match crypt_loop ck index position key a with
  | None => None
  | Some x =>
      match crypt_loop ck (index + len a) position key b with
      | None => None
      | Some y => Some (x ++ y)
      end
  end.
Proof.
  revert index; induction a as [|c a IH]; intros index.
  - cbn [app crypt_loop]. replace (index + len (@nil Z)) with index
      by (unfold len; cbn; lia).
    destruct (crypt_loop ck index position key b); reflexivity.
  - cbn [app crypt_loop].
    destruct (usize_add ck index position) as [i|]; [|reflexivity].
    rewrite IH.
    replace (index + 1 + len a) with (index + len (c :: a))
      by (unfold len; cbn [length]; lia).
    destruct (crypt_loop ck (index + 1) position key a); [|reflexivity].
    destruct (crypt_loop ck (index + len (c :: a)) position key b); reflexivity.
Qed.

(** X: [crypt] works byte by byte: encrypting [a ++ b] at [position] is
    encrypting [a] at [position] and then [b] at [position + a.len()], in
    every build (with wrapping arithmetic the indices wrap the same way);
    it panics exactly when one of the two parts does. *)
Theorem crypt_app ck position a b key :
  crypt ck position (a ++ b) key =
  match crypt ck position a key with
  | None => None
  | Some x =>
      match crypt ck (position + len a) b key with
      | None => None
      | Some y => Some (x ++ y)
      end
  end.
Proof.
  unfold crypt; cbv zeta.
  destruct (len key =? 0); [reflexivity|].
  rewrite crypt_loop_app.
  replace (0 + len a) with (0 + len a) by reflexivity.
  rewrite crypt_loop_shift. replace (position + (0 + len a)) with (position + len a)
    by lia.
  reflexivity.
Qed.

(** X: the key stream of [crypt] repeats with the key length: the same
    bytes encrypted at [position] and at [position + key.len()] give the
    same output, when no index reaches [2^64]. *)
Theorem crypt_key_period ck position data key :
  0 <= position -> position + len key + len data <= 2 ^ 64 ->
  crypt ck (position + len key) data key = crypt ck position data key.
Proof.
  intros Hp Hb.
  destruct key as [|k0 key].
  - reflexivity.
  - assert (Hl : 0 < len (k0 :: key)) by (unfold len; cbn [length]; lia).
    rewrite !crypt_eq_spec by (discriminate || lia).
    f_equal. unfold crypt_spec. apply map_ext. intros [i b].
    replace (position + len (k0 :: key) + Z.of_nat i)
      with (position + Z.of_nat i + 1 * len (k0 :: key)) by lia.
    rewrite Z.mod_add by lia. reflexivity.
Qed.

(** [put] when its seek, its cipher and its write go through. *)
Lemma put_run ck position data p t enc :
  usize_add ck position (offset p) = Some t ->
  fail_seek (file p) = false -> fail_write (file p) = false ->
  crypt ck position data (key p) = Some enc ->
  put ck position data p =
    Ok (set_file p (set_contents (file p)
                      (overwrite (contents (file p)) (Z.to_nat t) enc)
                      (Z.to_nat t + length enc)))
       (enc, len enc).
Proof.
  intros Ht Hs Hw Hc.
  unfold put, pm_bind, pm_gets, pm_lift, on_file, io_at, pm_ret, get_offset,
    get_key, file_seek, file_write.
  rewrite Ht, Hs. cbn [file set_file set_cursor fail_write contents cursor key].
  rewrite Hc. cbn [file set_file set_cursor fail_write contents cursor key].
  rewrite Hw. reflexivity.
Qed.

(** X: two [put] calls back to back, the second at the position where the
    first one ended, have the effect of one [put] of both buffers: the same
    container and store, the two encrypted buffers joined, and the sum of
    the counts. *)
Theorem put_put_app ck position a b p p1 ea na p2 eb nb :
  0 <= position -> 0 <= offset p -> position + offset p + len a < 2 ^ 64 ->
  put ck position a p = Ok p1 (ea, na) ->
  put ck (position + len a) b p1 = Ok p2 (eb, nb) ->
  put ck position (a ++ b) p = Ok p2 (ea ++ eb, na + nb).
Proof.
  intros Hp Ho Hb H1 H2.
  destruct (put_ok _ _ _ _ _ _ _ H1) as (t1 & Ht1 & Hs1 & Hw1 & Hc1 & Hn1 & ->).
  destruct (put_ok _ _ _ _ _ _ _ H2) as (t2 & Ht2 & _ & _ & Hc2 & Hn2 & ->).
  cbn [set_file offset key file set_contents contents] in *.
  unfold usize_add in Ht1, Ht2.
  assert (Hla : 0 <= len a) by (unfold len; lia).
  rewrite add_bits_small in Ht1 by lia. injection Ht1 as <-.
  rewrite add_bits_small in Ht2 by lia. injection Ht2 as <-.
  pose proof (crypt_length _ _ _ _ _ Hc1) as Hle1.
  assert (Hc : crypt ck position (a ++ b) (key p) = Some (ea ++ eb))
    by (rewrite crypt_app, Hc1, Hc2; reflexivity).
  rewrite (put_run ck position (a ++ b) p (position + offset p) (ea ++ eb));
    [| unfold usize_add; apply add_bits_small; lia | exact Hs1 | exact Hw1 | exact Hc].
  rewrite <- (overwrite_app _ _ (Z.to_nat (position + len a + offset p)))
    by (rewrite Hle1; unfold len; lia).
  subst na nb. unfold len. rewrite ?length_app, ?Nat2Z.inj_add.
  replace (Z.to_nat (position + Z.of_nat (length a) + offset p) + length eb)%nat
    with (Z.to_nat (position + offset p) + (length ea + length eb))%nat
    by (rewrite Hle1; lia).
  reflexivity.
Qed.

(** ** The big-endian integer codecs *)

(** X: [tou16] of [open] and [u16::get_bytes] are inverse: decoding the
    two bytes of a [u16] gives it back, and encoding the value of two bytes
    gives the two bytes back. *)
Theorem u16_codec :
  (forall x, 0 <= x < 2 ^ 16 -> tou16 (u16_bytes x) = x) /\
  (forall a b, 0 <= a < 256 -> 0 <= b < 256 -> u16_bytes (tou16 [a; b]) = [a; b]).
Proof.
  split; [exact tou16_u16|].
  intros a b Ha Hb.
  unfold tou16, u16_bytes; cbn [nth].
  rewrite Z.shiftl_mul_pow2, lor_mul_small by (change (2 ^ 8) with 256; lia).
  change (2 ^ 8) with 256.
  rewrite !as_u8_mod, Z.shiftr_div_pow2 by lia. change (2 ^ 8) with 256.
  rewrite Z.div_add_l, (Z.div_small b) by lia. rewrite Z.add_0_r.
  rewrite Z.mod_small by lia.
  rewrite Z.add_comm, Z.mod_add, Z.mod_small by lia.
  reflexivity.
Qed.

(** X: [tou32] of [open] and [u32::get_bytes] are inverse: decoding the
    four bytes of a [u32] gives it back, and encoding the value of four
    bytes gives the four bytes back. *)
Theorem u32_codec :
  (forall x, 0 <= x < 2 ^ 32 -> tou32 (u32_bytes x) = x) /\
  (forall a b c d, 0 <= a < 256 -> 0 <= b < 256 -> 0 <= c < 256 -> 0 <= d < 256 ->
     u32_bytes (tou32 [a; b; c; d]) = [a; b; c; d]).
Proof.
  split; [exact tou32_u32|].
  intros a b c d Ha Hb Hc Hd.
  assert (Hx : tou32 [a; b; c; d] = a * 16777216 + b * 65536 + c * 256 + d).
  { unfold tou32; cbn [nth].
    rewrite !Z.shiftl_mul_pow2 by lia.
    change (2 ^ 24) with 16777216; change (2 ^ 16) with 65536;
      change (2 ^ 8) with 256.
    assert (M0 : (a * 16777216) mod 2 ^ 24 = 0)
      by (change (2 ^ 24) with 16777216; apply Z.mod_mul; lia).
    rewrite (lor_add _ _ 24 ltac:(lia) M0) by (change (2 ^ 24) with 16777216; lia).
    assert (M1 : (a * 16777216 + b * 65536) mod 2 ^ 16 = 0)
      by (replace (a * 16777216 + b * 65536) with ((a * 256 + b) * 2 ^ 16)
            by ring; apply Z.mod_mul; lia).
    rewrite (lor_add _ _ 16 ltac:(lia) M1) by (change (2 ^ 16) with 65536; lia).
    assert (M2 : (a * 16777216 + b * 65536 + c * 256) mod 2 ^ 8 = 0)
      by (replace (a * 16777216 + b * 65536 + c * 256)
            with ((a * 65536 + b * 256 + c) * 2 ^ 8) by ring;
          apply Z.mod_mul; lia).
    rewrite (lor_add _ _ 8 ltac:(lia) M2) by (change (2 ^ 8) with 256; lia).
    reflexivity. }
  rewrite Hx. unfold u32_bytes.
  rewrite !as_u8_mod, !Z.shiftr_div_pow2 by lia.
  change (2 ^ 24) with 16777216; change (2 ^ 16) with 65536;
    change (2 ^ 8) with 256.
  set (x := a * 16777216 + b * 65536 + c * 256 + d).
  rewrite <- (Z.div_unique_pos x 16777216 a (b * 65536 + c * 256 + d))
    by (unfold x; lia).
  rewrite <- (Z.div_unique_pos x 65536 (a * 256 + b) (c * 256 + d))
    by (unfold x; lia).
  rewrite <- (Z.div_unique_pos x 256 (a * 65536 + b * 256 + c) d)
    by (unfold x; lia).
  rewrite (Z.mod_small a) by lia.
  rewrite <- (Z.mod_unique_pos (a * 256 + b) 256 a b) by lia.
  rewrite <- (Z.mod_unique_pos (a * 65536 + b * 256 + c) 256 (a * 256 + b) c)
    by lia.
  rewrite <- (Z.mod_unique_pos x 256 (a * 65536 + b * 256 + c) d) by (unfold x; lia).
  reflexivity.
Qed.

(** ** Reading the data and the hash *)

(** [get] changes no byte of the store and no field of the container. *)
Lemma get_state ck position buf p :
  (forall p' r, get ck position buf p = Ok p' r ->
     contents (file p') = contents (file p) /\ p' = set_file p (file p')) /\
  (forall p' e, get ck position buf p = Err p' e ->
     contents (file p') = contents (file p) /\ p' = set_file p (file p')).
Proof.
  unfold get, pm_bind, pm_gets, pm_lift, on_file, io_at, pm_ret, get_offset,
    get_key, file_seek, file_read.
  destruct (usize_add ck position (offset p)) as [t|];
    [| split; intros; discriminate].
  destruct (fail_seek (file p)).
  { split; intros p' r H; inversion H; subst; split; reflexivity. }
  cbn [file set_file set_cursor fail_read contents cursor key].
  destruct (fail_read (file p)).
  { split; intros p' r H; inversion H; subst; split; reflexivity. }
  cbv beta iota zeta.
  cbn [file set_file set_cursor fail_read contents cursor key].
  destruct (crypt ck position _ (key p)).
  - split; intros p' r H; inversion H; subst; split; reflexivity.
  - split; intros; discriminate.
Qed.

(** X: [get] never changes the store's bytes or the container's fields,
    whether it succeeds or fails (only the cursor moves). *)
Theorem get_keeps_store ck position buf p :
  (forall p' r, get ck position buf p = Ok p' r ->
     contents (file p') = contents (file p) /\ p' = set_file p (file p')) /\
  (forall p' e, get ck position buf p = Err p' e ->
     contents (file p') = contents (file p) /\ p' = set_file p (file p')).
Proof. apply get_state. Qed.

(** X: [get] past the end of the store reads nothing and returns 0, but
    the caller's buffer still goes through [crypt]: it comes back XORed
    with the key stream from [position] on, not unchanged. *)
Theorem get_past_end ck position buf p :
  fail_seek (file p) = false -> fail_read (file p) = false ->
  key p <> [] -> 0 <= position -> 0 <= offset p ->
  position + offset p < 2 ^ 64 -> position + len buf <= 2 ^ 64 ->
  (length (contents (file p)) <= Z.to_nat (position + offset p))%nat ->
  get ck position buf p =
    Ok (set_file p (set_cursor (file p) (Z.to_nat (position + offset p))))
       (crypt_spec position buf (key p), 0).
Proof.
  intros Hs Hr Hk Hp Ho Hb Hbl Hend.
  unfold get, pm_bind, pm_gets, pm_lift, on_file, io_at, pm_ret, get_offset,
    get_key, file_seek, file_read.
  unfold usize_add at 1; rewrite add_bits_small by lia.
  rewrite Hs. cbn [file set_file set_cursor fail_read contents cursor key].
  rewrite Hr. cbv beta iota zeta.
  rewrite skipn_all2 by exact Hend. cbn [length].
  rewrite Nat.min_0_r. cbn [firstn skipn app Z.of_nat].
  cbn [file set_file set_cursor fail_read contents cursor key].
  rewrite crypt_eq_spec by assumption.
  rewrite Nat.add_0_r. reflexivity.
Qed.

Lemma hash_loop_state ck fuel position buffer context p p' r :
  hash_loop ck fuel position buffer context p = Ok p' r ->
  contents (file p') = contents (file p) /\ p' = set_file p (file p').
Proof.
  revert position buffer context p; induction fuel as [|fuel IH];
    intros position buffer context p H; cbn [hash_loop] in H; [discriminate|].
  unfold pm_bind at 1 in H.
  destruct (get ck position buffer p) as [p1 [b n]| p1 e |] eqn:E;
    [| discriminate | discriminate].
  destruct (proj1 (get_state ck position buffer p) _ _ E) as [Hc1 Hp1].
  destruct (n =? 0).
  - unfold pm_ret in H. injection H as <- _. split; assumption.
  - unfold pm_bind, pm_lift in H.
    destruct (usize_add ck position n); [|discriminate].
    destruct (IH _ _ _ _ H) as [Hc2 Hp2].
    split; [congruence|].
    rewrite Hp2, Hp1. reflexivity.
Qed.

(** What a successful [check_hash] did. *)
Lemma check_hash_state ck md5 p p' :
  check_hash ck md5 p = Ok p' tt ->
  is_hash_valid p' = true /\ contents (file p') = contents (file p) /\
  major p' = major p /\ minor p' = minor p /\ offset p' = offset p /\
  key p' = key p /\ md_start p' = md_start p /\ md_length p' = md_length p /\
  (is_hash_valid p = true -> p' = p).
Proof.
  unfold check_hash, pm_bind, pm_gets, pm_ret.
  destruct (is_hash_valid p) eqn:Hv.
  - intros H; injection H as <-. split_and; auto.
  - match goal with |- context [hash_loop ck ?fu ?po ?bu ?co p] =>
      destruct (hash_loop ck fu po bu co p) as [p1 c| |] eqn:E;
      [| discriminate | discriminate] end.
    destruct (hash_loop_state _ _ _ _ _ _ _ _ E) as [Hc Hp].
    unfold pm_modify. intros H; injection H as <-.
    rewrite Hp; cbn [set_hash set_file is_hash_valid contents file major minor
                     offset key md_start md_length].
    rewrite <- Hc. split_and; try reflexivity. discriminate.
Qed.

(** X: a successful [check_hash] leaves the container with a trusted hash,
    changes no byte of the store and no field other than the hash, and
    when the hash was already trusted changes nothing at all. *)
Theorem check_hash_effect ck md5 p p' :
  check_hash ck md5 p = Ok p' tt ->
  is_hash_valid p' = true /\ contents (file p') = contents (file p) /\
  major p' = major p /\ minor p' = minor p /\ offset p' = offset p /\
  key p' = key p /\ md_start p' = md_start p /\ md_length p' = md_length p /\
  (is_hash_valid p = true -> p' = p).
Proof. apply check_hash_state. Qed.

Lemma firstn_overwrite_0 (d b : list Z) :
  firstn (length b) (overwrite d 0 b) = b.
Proof.
  unfold overwrite. cbn [firstn app Nat.add].
  rewrite firstn_app, Nat.sub_diag, firstn_O, app_nil_r. apply firstn_all.
Qed.

(** X: after a successful [flush] the hash is trusted and the store starts
    with the header of the container as it now is (its version, offset,
    new hash and key); only the hash field of the container changed. *)
Theorem flush_writes_current_header ck md5 p p' :
  flush ck md5 p = Ok p' tt ->
  let hb := header_bytes (major p') (minor p') (offset p') (hash p') (key p') in
  is_hash_valid p' = true /\
  firstn (length hb) (contents (file p')) = hb /\
  major p' = major p /\ minor p' = minor p /\ offset p' = offset p /\
  key p' = key p /\ md_start p' = md_start p /\ md_length p' = md_length p.
Proof.
  intros H hb. revert H. unfold flush. unfold pm_bind at 1.
  destruct (check_hash ck md5 p) as [p1 []| |] eqn:E;
    [| discriminate | discriminate].
  destruct (check_hash_state _ _ _ _ E) as (Hv & _ & Hma & Hmi & Ho & Hk & Hs & Hl & _).
  unfold pm_bind at 1.
  destruct (fail_seek (file p1)) eqn:Hsk.
  { rewrite write_header_seek_err by exact Hsk. discriminate. }
  destruct (fail_write (file p1)) eqn:Hw.
  { rewrite write_header_write_err by assumption. discriminate. }
  rewrite write_header_ok by assumption.
  unfold pm_bind, on_file, io_at, file_flush, pm_ret.
  cbn [file set_file set_contents fail_flush].
  destruct (fail_flush (file p1)); [discriminate|].
  intros H; injection H as <-.
  cbn [file set_file set_contents contents major minor offset key hash
       md_start md_length is_hash_valid] in *.
  unfold hb. cbn [major minor offset hash key].
  split_and; try assumption.
  apply firstn_overwrite_0.
Qed.

(** ** When [flush] completes *)

Lemma crypt_spec_length position data key :
  length (crypt_spec position data key) = length data.
Proof.
  unfold crypt_spec. rewrite length_map, length_combine, length_seq. lia.
Qed.

(** [get] on a store whose seeks and reads succeed, with a key. *)
Lemma get_run ck position buf p :
  fail_seek (file p) = false -> fail_read (file p) = false ->
  key p <> [] -> 0 <= position -> 0 <= offset p ->
  position + offset p < 2 ^ 64 -> position + len buf <= 2 ^ 64 ->
  let t := Z.to_nat (position + offset p) in
  let avail := skipn t (contents (file p)) in
  let k := Nat.min (length buf) (length avail) in
  get ck position buf p =
    Ok (set_file p (set_cursor (file p) (t + k)))
       (crypt_spec position (firstn k avail ++ skipn k buf) (key p), Z.of_nat k).
Proof.
  intros Hs Hr Hk Hp Ho Hb Hbl t avail k.
  unfold get, pm_bind, pm_gets, pm_lift, on_file, io_at, pm_ret, get_offset,
    get_key, file_seek, file_read.
  unfold usize_add at 1; rewrite add_bits_small by lia.
  rewrite Hs. cbn [file set_file set_cursor fail_read contents cursor key].
  rewrite Hr. cbv beta iota zeta. fold t avail k.
  cbn [file set_file set_cursor fail_read contents cursor key].
  assert (Hl : length (firstn k avail ++ skipn k buf) = length buf).
  { rewrite length_app, length_firstn, length_skipn. unfold k. lia. }
  rewrite crypt_eq_spec by (try assumption; unfold len in *; rewrite Hl; lia).
  reflexivity.
Qed.

Lemma hash_loop_ok ck fuel position buffer context p :
  fail_seek (file p) = false -> fail_read (file p) = false ->
  key p <> [] -> 0 <= offset p < 2 ^ 64 ->
  len (contents (file p)) + CHUNK_SIZE <= 2 ^ 64 ->
  length buffer = Z.to_nat CHUNK_SIZE -> 0 <= position ->
  (position = 0 \/ position + offset p <= len (contents (file p))) ->
  (length (contents (file p)) - Z.to_nat (position + offset p) < fuel)%nat ->
  exists c r,
    hash_loop ck fuel position buffer context p =
      Ok (set_file p (set_cursor (file p) c)) r.
Proof.
  revert position buffer context p.
  induction fuel as [|fuel IH]; intros position buffer context p
    Hs Hr Hk Ho Hlen Hbuf Hp Hpos Hfuel; [lia|].
  assert (HC : CHUNK_SIZE = 4096) by reflexivity.
  assert (Hl0 : 0 <= len (contents (file p))) by (unfold len; lia).
  cbn [hash_loop]. unfold pm_bind at 1.
  rewrite get_run by (try assumption; unfold len in *; lia).
  cbv zeta.
  set (t := Z.to_nat (position + offset p)).
  set (avail := skipn t (contents (file p))).
  set (k := Nat.min (length buffer) (length avail)).
  destruct (Z.eqb_spec (Z.of_nat k) 0) as [H0|H0].
  - unfold pm_ret. eexists; eexists. reflexivity.
  - assert (Hkt : (k <= length (contents (file p)) - t)%nat).
    { unfold k, avail. rewrite length_skipn. lia. }
    unfold pm_bind, pm_lift.
    unfold usize_add at 1. rewrite add_bits_small by (unfold len in *; lia).
    destruct (IH (position + Z.of_nat k)
                (crypt_spec position (firstn k avail ++ skipn k buffer) (key p))
                (context ++ crypt_spec position (firstn k avail ++ skipn k buffer)
                              (key p))
                (set_file p (set_cursor (file p) (t + k))))
      as (c & r & E).
    + exact Hs.
    + exact Hr.
    + exact Hk.
    + exact Ho.
    + exact Hlen.
    + rewrite crypt_spec_length, length_app, length_firstn, length_skipn.
      unfold k in *. lia.
    + lia.
    + right. cbn [file set_file set_cursor contents offset]. unfold t in *.
      unfold len in *. lia.
    + cbn [file set_file set_cursor contents offset]. unfold t in *. lia.
    + rewrite E. eexists; eexists. reflexivity.
Qed.

(** X: [flush] completes: on a store whose seeks, reads, writes and flush
    succeed, a container with a non-empty key, an offset and a store size
    that keep every index below [2^64] is flushed with [Ok], whether its
    hash is trusted or has to be recomputed. *)
Theorem flush_succeeds ck md5 p :
  fail_seek (file p) = false -> fail_read (file p) = false ->
  fail_write (file p) = false -> fail_flush (file p) = false ->
  key p <> [] -> 0 <= offset p < 2 ^ 64 ->
  len (contents (file p)) + CHUNK_SIZE <= 2 ^ 64 ->
  exists p', flush ck md5 p = Ok p' tt.
Proof.
  intros Hs Hr Hw Hf Hk Ho Hlen.
  assert (Hcheck : exists c h v,
             check_hash ck md5 p =
               Ok (mkPico (major p) (minor p) (offset p) h (key p) v
                     (md_start p) (md_length p) (set_cursor (file p) c)) tt).
  { unfold check_hash, pm_bind, pm_gets, pm_ret.
    destruct (is_hash_valid p) eqn:Hv.
    - exists (cursor (file p)), (hash p), true.
      destruct p as [ma mi off h k v ms ml [d c fs fr fw ff]].
      cbn in Hv |- *. rewrite Hv. reflexivity.
    - destruct (hash_loop_ok ck (S (length (contents (file p)))) 0
                  (repeat 0 (Z.to_nat CHUNK_SIZE)) [] p)
        as (c & r & E); try assumption.
      + apply repeat_length.
      + lia.
      + left; reflexivity.
      + lia.
      + rewrite E. unfold pm_modify. exists c, (md5 r), true. reflexivity. }
  destruct Hcheck as (c & h & v & Hc).
  unfold flush. unfold pm_bind at 1. rewrite Hc.
  unfold pm_bind at 1. rewrite write_header_ok by assumption.
  unfold pm_bind, on_file, io_at, file_flush, pm_ret.
  cbn [file set_file set_contents set_cursor fail_flush]. rewrite Hf.
  eexists; reflexivity.
Qed.

(** X: a container with an empty key (which [new] accepts) cannot be
    flushed once its hash is untrusted: the first [get] of the hash
    recomputation reaches [crypt], which panics on the empty key. *)
Theorem flush_empty_key_panics ck md5 p :
  is_hash_valid p = false -> key p = [] ->
  fail_seek (file p) = false -> fail_read (file p) = false ->
  0 <= offset p < 2 ^ 64 ->
  flush ck md5 p = Panic.
Proof.
  intros Hv Hk Hs Hr Ho.
  unfold flush, check_hash. unfold pm_bind at 1. unfold pm_bind at 1.
  unfold pm_gets. rewrite Hv. unfold pm_bind at 1. unfold pm_bind at 1.
  cbn [hash_loop]. unfold pm_bind at 1. unfold pm_bind at 1.
  unfold get, pm_bind, pm_gets, pm_lift, on_file, io_at, pm_ret, get_offset,
    get_key, file_seek, file_read.
  unfold usize_add at 1; rewrite add_bits_small by lia.
  rewrite Hs. cbn [file set_file set_cursor fail_read contents cursor key].
  rewrite Hr. cbv beta iota zeta.
  cbn [file set_file set_cursor fail_read contents cursor key].
  rewrite Hk. reflexivity.
Qed.

(** ** Text dumps *)

Lemma string_app_nil (s : string) : (s ++ EmptyString)%string = s.
Proof. induction s as [|a s IH]; [reflexivity | cbn; rewrite IH; reflexivity]. Qed.

Lemma string_app_assoc (a b c : string) : (a ++ (b ++ c))%string = ((a ++ b) ++ c)%string.
Proof. induction a as [|x a IH]; [reflexivity | cbn; rewrite IH; reflexivity]. Qed.

Lemma suffix_app (t a b : string) :
  (exists s, b = (s ++ t)%string) -> exists s, (a ++ b)%string = (s ++ t)%string.
Proof. intros [s ->]. exists (a ++ s)%string. apply string_app_assoc. Qed.

(** A loop that writes [", "] before every item but the first. *)
Lemma sep_loop (item : Z -> string) (loop : bool -> list Z -> string) :
  loop false [] = EmptyString -> loop true [] = EmptyString ->
  (forall b l, loop true (b :: l) = (item b ++ loop false l)%string) ->
  (forall b l, loop false (b :: l) = (", " ++ item b ++ loop false l)%string) ->
  forall l, loop true l = String.concat ", " (map item l).
Proof.
  intros Hf0 Ht0 Ht Hf.
  assert (H : forall l, loop false l =
            match l with
            | [] => EmptyString
            | _ => (", " ++ String.concat ", " (map item l))%string
            end).
  { induction l as [|b l IH]; [exact Hf0|].
    rewrite Hf, IH. destruct l as [|c l].
    - cbn [map String.concat]. rewrite string_app_nil. reflexivity.
    - reflexivity. }
  intros [|b l]; [exact Ht0|].
  rewrite Ht, H. destruct l as [|c l].
  - cbn [map String.concat]. apply string_app_nil.
  - reflexivity.
Qed.

Lemma dump_vec_hex_plain bytes :
  dump_vec bytes true false = String.concat EmptyString (map hex2 bytes).
Proof.
  unfold dump_vec.
  assert (H : forall first, dump_vec_loop first bytes true false =
                String.concat EmptyString (map hex2 bytes)); [|apply H].
  induction bytes as [|b l IH]; intros first; [reflexivity|].
  cbn [dump_vec_loop negb orb]. rewrite IH.
  destruct l as [|c l]; cbn [map String.concat].
  - apply string_app_nil.
  - reflexivity.
Qed.

(** X: [dump_vec] puts [", "] between items only, never before the first
    or after the last, whenever it writes decimal or is asked for commas;
    in hexadecimal without commas it writes the two digits of each byte
    with nothing between them. *)
Theorem dump_vec_layout :
  (forall bytes, dump_vec bytes true true =
     String.concat ", " (map (fun b => ("0x" ++ hex2 b)%string) bytes)) /\
  (forall bytes commas, dump_vec bytes false commas =
     String.concat ", " (map dec bytes)) /\
  (forall bytes, dump_vec bytes true false =
     String.concat EmptyString (map hex2 bytes)).
Proof.
  split; [|split].
  - intros bytes. unfold dump_vec.
    apply (sep_loop _ (fun first l => dump_vec_loop first l true true));
      reflexivity.
  - intros bytes commas. unfold dump_vec.
    apply (sep_loop _ (fun first l => dump_vec_loop first l false commas));
      reflexivity.
  - apply dump_vec_hex_plain.
Qed.

(** X: [ByteDump::dump_bytes] writes the bytes of [get_bytes] separated by
    [", "], each as [0x] and two upper-case hexadecimal digits or in
    decimal. *)
Theorem dump_bytes_layout bytes hex :
  dump_bytes bytes hex =
  String.concat ", "
    (map (fun b => if hex then ("0x" ++ hex2 b)%string else dec b) bytes).
Proof.
  unfold dump_bytes.
  apply (sep_loop _ (fun first l => dump_bytes_loop first l hex)); reflexivity.
Qed.

Lemma get_app_none (c : ascii) (a b : string) :
  (forall i, String.get i a <> Some c) -> (forall i, String.get i b <> Some c) ->
  forall i, String.get i (a ++ b) <> Some c.
Proof.
  revert a; induction a as [|x a IH]; intros Ha Hb i; [apply Hb|].
  destruct i as [|i].
  - exact (Ha 0%nat).
  - cbn. apply IH; [|exact Hb]. intros j. exact (Ha (S j)).
Qed.

Lemma hex_digit_no_quote (d : Z) (i : nat) :
  String.get i (hex_digit d) <> Some "'"%char.
Proof.
  unfold hex_digit. destruct (Nat.lt_ge_cases i 1) as [H|H].
  - rewrite substring_correct1 by exact H.
    generalize (i + Z.to_nat d)%nat as j. intros j.
    do 16 (destruct j as [|j]; [cbv; discriminate|]). cbv; discriminate.
  - rewrite substring_correct2 by exact H. discriminate.
Qed.

Lemma hex_concat_no_quote (bytes : list Z) (i : nat) :
  String.get i (String.concat EmptyString (map hex2 bytes)) <> Some "'"%char.
Proof.
  revert i; induction bytes as [|b l IH]; intros i; [destruct i; discriminate|].
  assert (Hb : forall j, String.get j (hex2 b) <> Some "'"%char)
    by (intros j; apply get_app_none; intros; apply hex_digit_no_quote).
  destruct l as [|c l]; cbn [map String.concat].
  - apply Hb.
  - apply get_app_none; [exact Hb|]. exact IH.
Qed.

(** X: the XML dump never closes the [hash] attribute: the text after
    [hash='] up to the next apostrophe is the hash in hexadecimal followed
    by [ key=], so an XML reader takes that as the hash value and the key
    digits end up outside any attribute. *)
Theorem dump_header_xml_hash_unclosed p :
  exists pre post,
    dump_header p XML =
      (pre ++ " hash='" ++ String.concat EmptyString (map hex2 (hash p)) ++
       " key=" ++ "'" ++ post)%string /\
    (forall i, String.get i (String.concat EmptyString (map hex2 (hash p)) ++ " key=")
               <> Some "'"%char).
Proof.
  exists ("<pico magic='0x" ++ hex4 MAGIC ++ "' major='" ++ dec (major p) ++
       "' minor='" ++ dec (minor p) ++ "' offset='" ++ dec (get_offset p) ++ "'")%string.
  exists (dump_vec (key p) true false ++
       " md_length='" ++ dec (get_md_length p) ++ "' />")%string.
  split.
  - unfold dump_header, get_version, get_hash, get_key.
    cbv beta iota zeta.
    rewrite dump_vec_hex_plain.
    change " key='"%string with (" key=" ++ "'")%string at 1.
    rewrite <- !string_app_assoc. reflexivity.
  - apply get_app_none; [apply hex_concat_no_quote|].
    intros [|[|[|[|[|[|i]]]]]]; cbn; discriminate.
Qed.

(** X: the JSON dump (like the Python dict dump) ends its last member with
    a comma before the closing brace, which JSON does not allow. *)
Theorem dump_header_json_trailing_comma p :
  exists s, dump_header p JSON = (s ++ "," ++ nl ++ "}" ++ nl)%string.
Proof.
  unfold dump_header, get_version. cbv beta iota zeta.
  repeat (first [exists EmptyString; reflexivity | apply suffix_app]).
Qed.

(** ** Instances *)

Ltac concrete :=
  vm_compute; repeat split; first [reflexivity | discriminate | intro; discriminate | lia].

Lemma write_header_effect_witness :
  write_header sample_pico =
    Ok (set_file sample_pico
          (set_contents (file sample_pico)
             (overwrite (contents (file sample_pico)) 0
                (header_bytes 1 0 40 (repeat 0 16) [0x40; 0x09])) 30)) tt.
Proof.
  apply (proj2 (proj2 (write_header_effect sample_pico))); concrete.
Defined.

Lemma new_io_errors_witness :
  new true (mkFile [] 0 false false false true) [0x40; 0x09] 10
  = Err tt (WriteFailed 1001 EIO).
Proof.
  apply (proj2 (proj2 (new_io_errors true (mkFile [] 0 false false false true)
                         [0x40; 0x09] 10 ltac:(concrete) ltac:(concrete))));
    concrete.
Defined.

Lemma new_open_roundtrip_witness :
  exists p p',
    new true fresh_file [0x40; 0x09] 10 = Ok tt p /\
    offset p = KEY_POS + len [0x40; 0x09] + 10 /\
    md_start p = KEY_POS + len [0x40; 0x09] /\ md_length p = 10 /\
    open true (set_cursor (file p) 0) = Ok tt p' /\
    major p' = major p /\ minor p' = minor p /\ offset p' = offset p /\
    hash p' = hash p /\ key p' = [0x40; 0x09] /\ md_start p' = md_start p /\
    md_length p' = md_length p /\ is_hash_valid p' = true.
Proof.
  apply (new_open_roundtrip true fresh_file [0x40; 0x09] 10); concrete.
Defined.

Lemma flush_open_roundtrip_witness :
  exists p1 p2,
    flush true (fun _ => repeat 0 16) sample_opened = Ok p1 tt /\
    (forall i, (28 + length (key sample_opened) <= i)%nat ->
       nth i (contents (file p1)) 0 = nth i (contents (file sample_opened)) 0) /\
    open true (set_cursor (file p1) 0) = Ok tt p2 /\
    major p2 = major sample_opened /\ minor p2 = minor sample_opened /\
    offset p2 = offset sample_opened /\
    hash p2 = hash sample_opened /\ key p2 = key sample_opened /\
    md_start p2 = KEY_POS + len (key sample_opened) /\
    md_length p2 = offset sample_opened - (KEY_POS + len (key sample_opened)).
Proof.
  apply (flush_open_roundtrip true (fun _ => repeat 0 16) sample_opened); concrete.
Defined.

Lemma open_not_pico_witness :
  let f := mkFile [1; 2; 3] 0 false false false false in
  let avail := firstn 2 (skipn (cursor f) (contents f)) in
  let magic := tou16 (avail ++ skipn (length avail) [0; 0]) in
  (magic <> MAGIC -> open true f = Err tt (NotPico magic)) /\
  ((length (contents f) <= cursor f)%nat -> open true f = Err tt (NotPico 0)).
Proof.
  apply (open_not_pico true (mkFile [1; 2; 3] 0 false false false false)).
  reflexivity.
Defined.

Lemma open_bad_version_witness :
  open true (mkFile (u16_bytes MAGIC ++ u16_bytes 2 ++ u16_bytes 0) 0
               false false false false)
  = Err tt (BadVersion 2 0).
Proof.
  apply (open_bad_version true 2 0 []); concrete.
Defined.

Lemma open_short_key_witness :
  exists p,
    open true (mkFile (u16_bytes MAGIC ++ u16_bytes 1 ++ u16_bytes 0 ++
                       u32_bytes 40 ++ repeat 0 16 ++ u16_bytes 5 ++ [7; 8]) 0
                 false false false false) = Ok tt p /\
    key p = [7; 8] ++ repeat 0 (Z.to_nat 5 - length [7; 8]) /\
    md_start p = KEY_POS + 5 /\ offset p = 40 /\ hash p = repeat 0 16.
Proof.
  apply (open_short_key true 1 0 40 (repeat 0 16) 5 [7; 8]); concrete.
Defined.

Lemma open_zero_key_witness :
  open true (mkFile (u16_bytes MAGIC ++ u16_bytes 1 ++ u16_bytes 0 ++
                     u32_bytes 40 ++ repeat 0 16 ++ u16_bytes 0 ++ [7; 8]) 0
               false false false false)
  = Err tt KeyError.
Proof.
  apply (open_zero_key true 1 0 40 (repeat 0 16) [7; 8]); concrete.
Defined.

Lemma put_writes_only_target_witness :
  let t := Z.to_nat (0 + offset sample_pico) in
  (forall i, (i < t \/ t + length [0x41] <= i)%nat ->
     nth i (contents (file sample_written)) 0 = nth i (contents (file sample_pico)) 0) /\
  (forall i, (i < length [0x41])%nat ->
     nth (t + i) (contents (file sample_written)) 0 = nth i [0x01] 0) /\
  cursor (file sample_written) = (t + length [0x41])%nat /\ 1 = len [0x41] /\
  sample_written = set_file sample_pico (file sample_written).
Proof.
  apply (put_writes_only_target true 0 [0x41] sample_pico sample_written [0x01] 1);
    concrete.
Defined.

Lemma put_metadata_stays_in_region_witness :
  let p' := state_of (put_metadata true 0 martindale sample_pico) sample_pico in
  (forall i, (i < Z.to_nat (md_start sample_pico + 0) \/
              Z.to_nat (md_start sample_pico + md_length sample_pico) <= i)%nat ->
     nth i (contents (file p')) 0 = nth i (contents (file sample_pico)) 0) /\
  0 <= 10 <= len martindale /\
  p' = set_file sample_pico (file p').
Proof.
  apply (put_metadata_stays_in_region true sample_pico 0 martindale); concrete.
Defined.

Lemma metadata_roundtrip_witness :
  exists p2,
    get_metadata true 0 (repeat 0 10)
      (state_of (put_metadata true 0 martindale sample_pico) sample_pico) =
      Ok p2 (firstn (Z.to_nat 10) martindale ++ skipn (Z.to_nat 10) (repeat 0 10), 10).
Proof.
  apply (metadata_roundtrip true sample_pico 0 martindale); concrete.
Defined.

Lemma crypt_key_period_witness :
  crypt true (0 + len [0x40; 0x09]) [1; 2; 3] [0x40; 0x09]
  = crypt true 0 [1; 2; 3] [0x40; 0x09].
Proof.
  apply crypt_key_period; concrete.
Defined.

Lemma put_put_app_witness :
  put true 0 ([0x41] ++ [0x42]) sample_pico =
    Ok (state_of (put true (0 + len [0x41]) [0x42] sample_written) sample_written)
       ([0x01] ++ [0x4b], 1 + 1).
Proof.
  apply (put_put_app true 0 [0x41] [0x42] sample_pico sample_written); concrete.
Defined.

Lemma u16_codec_witness :
  tou16 (u16_bytes MAGIC) = MAGIC /\ u16_bytes (tou16 [0x91; 0xc0]) = [0x91; 0xc0].
Proof.
  split.
  - apply (proj1 u16_codec); concrete.
  - apply (proj2 u16_codec); concrete.
Defined.

Lemma u32_codec_witness :
  tou32 (u32_bytes 40) = 40 /\ u32_bytes (tou32 [1; 2; 3; 4]) = [1; 2; 3; 4].
Proof.
  split.
  - apply (proj1 u32_codec); concrete.
  - apply (proj2 u32_codec); concrete.
Defined.

Lemma get_keeps_store_witness :
  contents (file (state_of (get true 0 [0; 0] sample_pico) sample_pico))
  = contents (file sample_pico).
Proof.
  apply (proj1 (proj1 (get_keeps_store true 0 [0; 0] sample_pico) _ ([0x40; 0x09], 0)
                 ltac:(vm_compute; reflexivity))).
Defined.

Lemma get_past_end_witness :
  get true 0 [0; 0] sample_pico =
    Ok (set_file sample_pico
          (set_cursor (file sample_pico) (Z.to_nat (0 + offset sample_pico))))
       (crypt_spec 0 [0; 0] (key sample_pico), 0).
Proof.
  apply get_past_end; concrete.
Defined.

Lemma check_hash_effect_witness :
  let p' := state_of (check_hash true (fun _ => repeat 0 16) sample_pico) sample_pico in
  is_hash_valid p' = true /\ contents (file p') = contents (file sample_pico) /\
  major p' = major sample_pico /\ minor p' = minor sample_pico /\
  offset p' = offset sample_pico /\ key p' = key sample_pico /\
  md_start p' = md_start sample_pico /\ md_length p' = md_length sample_pico /\
  (is_hash_valid sample_pico = true -> p' = sample_pico).
Proof.
  apply (check_hash_effect true (fun _ => repeat 0 16) sample_pico); concrete.
Defined.

Lemma flush_writes_current_header_witness :
  let p' := state_of (flush true (fun _ => repeat 7 16) sample_written) sample_written in
  let hb := header_bytes (major p') (minor p') (offset p') (hash p') (key p') in
  is_hash_valid p' = true /\
  firstn (length hb) (contents (file p')) = hb /\
  major p' = major sample_written /\ minor p' = minor sample_written /\
  offset p' = offset sample_written /\ key p' = key sample_written /\
  md_start p' = md_start sample_written /\ md_length p' = md_length sample_written.
Proof.
  apply (flush_writes_current_header true (fun _ => repeat 7 16) sample_written);
    concrete.
Defined.

Lemma flush_succeeds_witness :
  exists p', flush true (fun _ => repeat 7 16) sample_written = Ok p' tt.
Proof.
  apply flush_succeeds; concrete.
Defined.

Lemma flush_empty_key_panics_witness :
  flush true (fun _ => repeat 7 16) (result_pico (new true fresh_file [] 0)) = Panic.
Proof.
  apply flush_empty_key_panics; concrete.
Defined.
